(** * serpentTools: the comparison engine

    A shallow embedding of the comparison utilities of
    [serpentTools/utils.py] ([getCommonKeys], [directCompare],
    [getKeyMatchingShapes]) and of the comparable-object protocol of
    [serpentTools/objects/base.py] ([BaseObject.compare] and its helpers).

    Modelling decisions.
    - Python [int] is [Z].  Python [float] and the entries of a numeric
      [numpy.ndarray] (of dtype [float64]) are IEEE 754 binary64 numbers,
      [spec_float] of the standard library with precision 53 and maximal
      exponent 1024: every operation rounds to nearest, ties to even, and
      infinities, signed zeros and NaN are values like the others.
    - Where [numpy] meets a Python [int] it converts it to [float64]; this
      is modelled for the ints of the 64-bit range.  A larger one leaves
      the model, or raises [OverflowError] where the code divides by an
      int that is beyond the doubles.
    - A numeric [ndarray] is its shape together with its entries in
      row-major order.
    - A [dict] is a [gmap], a [set] is a [gset]; keys are strings.
    - A class is identified by its identity, not by its name: two classes
      defined with one name and the same bases are different classes.
    - The code threads two pieces of process state: the verbosity entry of
      the settings object [rc] and the stream of notifications handed to
      [serpentTools.messages].  Both live in [world]; every operation is a
      computation in the state-and-exception monad [M]. *)

From Stdlib Require Import ZArith QArith Lia SpecFloat.
From stdpp Require Import gmap strings list fin_maps fin_sets.

Local Open Scope Q_scope.

(** ** Numbers *)

(** A Python [float]: an IEEE 754 binary64 number.  The doubles are the
    values of [spec_float] in canonical form, those [f64_valid] accepts;
    the operations below take doubles to doubles. *)
Definition double : Type := spec_float.

Definition f64_valid (x : double) : bool := valid_binary 53 1024 x.

Definition f64_sub (x y : double) : double := SFsub 53 1024 x y.
Definition f64_mul (x y : double) : double := SFmul 53 1024 x y.
Definition f64_div (x y : double) : double := SFdiv 53 1024 x y.
Definition f64_abs (x : double) : double := SFabs x.

(** [x < y] and [x <= y]: false as soon as one side is NaN. *)
Definition f64_lt (x y : double) : bool := SFltb x y.
Definition f64_le (x y : double) : bool := SFleb x y.

Definition f64_is_nan (x : double) : bool :=
  match x with
  | S754_nan => true
  | _ => false
  end.


(** The double nearest to the integer [z], ties to even; infinite when
    [z] is beyond the range of the doubles. *)
Definition f64_of_int (z : Z) : double := binary_normalize 53 1024 z 0 false.

Definition f64_zero : double := S754_zero false.

(** The doubles of the given integer values. *)
Definition f64s (zs : list Z) : list double := map f64_of_int zs.

(** The double nearest to [n / d], for two integers below [2^53]: the
    value of a decimal literal such as [0.34]. *)
Definition f64_ratio (n d : Z) : double := f64_div (f64_of_int n) (f64_of_int d).

(** The least magnitude of an integer that rounds beyond the largest
    double, [2^1024 - 2^970]. *)
Definition FLOAT_OVERFLOW : Z := (2 ^ 1024 - 2 ^ 970)%Z.

(** The integers [numpy] holds in an [int64]. *)
Definition int64 (z : Z) : bool :=
  ((- 2 ^ 63 <=? z) && (z <? 2 ^ 63))%Z.

(** A Python number as [compare] receives it for [lower], [upper] and
    [sigma]. *)
Inductive pynum :=
  | PInt (z : Z)
  | PFloat (x : double).

(** ** Python values and their concrete types *)

Inductive pytype :=
  | TStr
  | TInt
  | TFloat
  | TNdarray
  | TBool
  | TNone
  | TOther (name : string).

#[global] Instance pytype_eq_dec : EqDecision pytype.
Proof. solve_decision. Defined.

Record ndarray := mkArr { shape : list nat; data : list double }.


Inductive pyval :=
  | VStr (s : string)
  | VInt (z : Z)
  | VFloat (x : double)
  | VArr (a : ndarray)
  | VBool (b : bool)
  | VNone
  | VOther (cls : string).

(** [type(v)] *)
Definition type (v : pyval) : pytype :=
  match v with
  | VStr _ => TStr
  | VInt _ => TInt
  | VFloat _ => TFloat
  | VArr _ => TNdarray
  | VBool _ => TBool
  | VNone => TNone
  | VOther c => TOther c
  end.

(** ** Messages, exceptions and the process state *)

(** An argument handed to [str.format]. *)
Inductive fmtarg :=
  | AStr (s : string)
  | AInt (z : Z)
  | AFloat (x : double)
  | AType (t : pytype).

(** A formatted message: the template and the arguments of [.format]. *)
Record message := mkMsg { template : string; args : list fmtarg }.

Inductive exn :=
  | TypeError (m : message)
  | ValueError (m : message)
  | NotImplementedError
  | OtherError (name : string).

(** How a call ends: it returns, it raises, or it leaves the model
    ([Unmodelled]: [numpy] broadcasting between arrays of different
    shapes, and [numpy] arithmetic on an int beyond the 64-bit range). *)
Inductive outcome (A : Type) :=
  | Return (a : A)
  | Raise (e : exn)
  | Unmodelled.
Arguments Return {A} a.
Arguments Raise {A} e.
Arguments Unmodelled {A}.

(** *** The builtins [float] and [int] *)

(** [float(x)]: an int is rounded to the nearest double, and one that is
    too large for a double raises [OverflowError]. *)
Definition float (x : pynum) : outcome double :=
  match x with
  | PInt z =>
      if (Z.abs z <? FLOAT_OVERFLOW)%Z then Return (f64_of_int z)
      else Raise (OtherError "OverflowError")
  | PFloat x => Return x
  end.

(** [int(x)]: truncation towards zero; NaN raises [ValueError] and an
    infinity [OverflowError]. *)
Definition int (x : pynum) : outcome Z :=
  match x with
  | PInt z => Return z
  | PFloat (S754_zero _) => Return 0%Z
  | PFloat (S754_finite s m e) =>
      Return (cond_Zopp s
                (if (0 <=? e)%Z then Z.pos m * 2 ^ e
                 else Z.pos m / 2 ^ (- e)))%Z
  | PFloat (S754_infinity _) => Raise (OtherError "OverflowError")
  | PFloat S754_nan =>
      Raise (ValueError (mkMsg "cannot convert float NaN to integer" []))
  end.

(** [x < 0] on a Python number *)
Definition pynum_neg (x : pynum) : bool :=
  match x with
  | PInt z => (z <? 0)%Z
  | PFloat x => f64_lt x f64_zero
  end.

(** The notifier handed to [getCommonKeys] as [herald]. *)
Inductive herald :=
  | HError
  | HWarning
  | HInfo
  | HDebug
  | HNotCallable.

(** One notification handed to [serpentTools.messages]. *)
Inductive notice :=
  | NIdentical (obj0 obj1 : pyval) (quantity : string)
  | NNotIdentical (obj0 obj1 : pyval) (quantity : string)
  | NAcceptableLow (obj0 obj1 : pyval) (quantity : string)
  | NAcceptableHigh (obj0 obj1 : pyval) (quantity : string)
  | NOutsideTols (obj0 obj1 : pyval) (quantity : string)
  | NDifferentTypes (type0 type1 : pytype) (quantity : string)
  | NMissingKeys (desc0 desc1 : string) (in0 in1 : gset string) (via : herald)
  | NBadTypes (desc0 desc1 : string) (bad : gmap string (pytype * pytype))
  | NBadShapes (desc0 desc1 : string) (bad : gmap string (list nat * list nat))
  | NInfo (lines : list message)
  | NCritical (m : message).

(** The process state: [rc['verbosity']] and the notifications emitted so
    far, oldest first. *)
Record world := mkWorld { rc_verbosity : string; log : list notice }.

Definition M (A : Type) : Type := world -> outcome A * world.

Definition ret {A} (a : A) : M A := fun w => (Return a, w).
Definition raise {A} (e : exn) : M A := fun w => (Raise e, w).
Definition unmodelled {A} : M A := fun w => (Unmodelled, w).
Definition bind {A B} (c : M A) (k : A -> M B) : M B :=
  fun w =>
    match c w with
    | (Return a, w') => k a w'
    | (Raise e, w') => (Raise e, w')
    | (Unmodelled, w') => (Unmodelled, w')
    end.

Notation "x <- c ;; k" := (bind c (fun x => k))
  (at level 100, c at next level, right associativity).
Notation "c ;;; k" := (bind c (fun _ => k))
  (at level 100, right associativity).

Definition emit (n : notice) : M unit :=
  fun w => (Return tt, mkWorld (rc_verbosity w) (log w ++ [n])).

(** [rc['verbosity']] read and written. *)
Definition get_verbosity : M string := fun w => (Return (rc_verbosity w), w).
Definition set_verbosity (v : string) : M unit :=
  fun w => (Return tt, mkWorld v (log w)).

Definition lift {A} (o : outcome A) : M A := fun w => (o, w).

(** ** [serpentTools.messages] *)

(** Modelled from the spec: the classification primitives of
    [serpentTools.messages] ([identical], [notIdentical], [acceptableLow],
    [acceptableHigh], [outsideTols], [differentTypes]) are not part of the
    sources at hand.  Each one emits exactly one notification tagged by its
    verdict kind and carrying the values and the label it was given. *)
Definition identical (obj0 obj1 : pyval) (quantity : string) : M unit :=
  emit (NIdentical obj0 obj1 quantity).
Definition notIdentical (obj0 obj1 : pyval) (quantity : string) : M unit :=
  emit (NNotIdentical obj0 obj1 quantity).
Definition acceptableLow (obj0 obj1 : pyval) (quantity : string) : M unit :=
  emit (NAcceptableLow obj0 obj1 quantity).
Definition acceptableHigh (obj0 obj1 : pyval) (quantity : string) : M unit :=
  emit (NAcceptableHigh obj0 obj1 quantity).
Definition outsideTols (obj0 obj1 : pyval) (quantity : string) : M unit :=
  emit (NOutsideTols obj0 obj1 quantity).
Definition differentTypes (type0 type1 : pytype) (quantity : string) : M unit :=
  emit (NDifferentTypes type0 type1 quantity).

(** Modelled from the spec: [logMissingKeys] of [serpentTools.messages] is
    not part of the sources at hand.  It emits a single notification
    enumerating which labelled side is missing which keys, through the
    notifier supplied by the caller; a notifier that is not callable is
    reported at critical severity and replaced by the default one. *)
Definition logMissingKeys (desc0 desc1 : string) (in0 in1 : gset string)
    (h : herald) : M unit :=
  match h with
  | HNotCallable =>
      emit (NCritical (mkMsg "herald is not callable" [])) ;;;
      emit (NMissingKeys desc0 desc1 in0 in1 HError)
  | _ => emit (NMissingKeys desc0 desc1 in0 in1 h)
  end.

(** Modelled from the spec: [logBadTypes] and [logBadShapes] of
    [serpentTools.messages] are not part of the sources at hand.  Each emits
    one aggregated notification for the whole batch of offending keys. *)
Definition logBadTypes (desc0 desc1 : string)
    (bad : gmap string (pytype * pytype)) : M unit :=
  emit (NBadTypes desc0 desc1 bad).
Definition logBadShapes (desc0 desc1 : string)
    (bad : gmap string (list nat * list nat)) : M unit :=
  emit (NBadShapes desc0 desc1 bad).

(** Modelled from the spec: [info] of [serpentTools.messages], one
    notification at informational severity.  The lines are those joined by
    the caller. *)
Definition info (lines : list message) : M unit := emit (NInfo lines).

(** ** [serpentTools.utils] *)

(** [1E-8] as a double: [6044629098073146 * 2^-79], a little above the
    real number [10^-8]. *)
Definition LOWER_LIM_DIVISION : double :=
  S754_finite false 6044629098073146 (-79).

(** *** [getCommonKeys] *)

(** The two shapes of argument [getCommonKeys] accepts: a [dict], whose
    keys are used, or an iterable of keys. *)
Inductive keysrc :=
  | Dict (d : gmap string pyval)
  | Iter (ks : list string).

(** [set(d.keys() if isinstance(d, dict) else d)] *)
Definition keyset (d : keysrc) : gset string :=
  match d with
  | Dict m => dom m
  | Iter ks => list_to_set ks
  end.

Definition symmetric_difference (s0 s1 : gset string) : gset string :=
  (s0 ∖ s1) ∪ (s1 ∖ s0).

(** Truth value of a [set]: non-emptiness. *)
Definition set_truthy (s : gset string) : bool := negb (bool_decide (s = ∅)).

Definition getCommonKeys (d0 d1 : keysrc) (desc0 desc1 : string)
    (h : herald) : M (gset string) :=
  let s0 := keyset d0 in
  let s1 := keyset d1 in
  let common := s0 ∩ s1 in
  let missing := symmetric_difference s0 s1 in
  (if set_truthy missing then
     let in0 := s0 ∖ s1 in
     let in1 := s1 ∖ s0 in
     logMissingKeys desc0 desc1 in0 in1 h
   else ret tt) ;;;
  ret common.

(** *** [directCompare] *)

Definition COMPARE_NUMERICS : list pytype := [TFloat; TInt].

(** [t in ts] for a tuple of types *)
Definition type_in (t : pytype) (ts : list pytype) : bool :=
  bool_decide (t ∈ ts).

(** What the intermediate [diff] holds: a Python int (the difference of
    two ints), a [float64] scalar, or an array. *)
Inductive npval :=
  | NInt (z : Z)
  | NScalar (x : double)
  | NArray (a : ndarray).

(** [obj0 - obj1].  Two ints are subtracted as integers; an int against a
    float is first converted with [float]; two arrays of one shape are
    subtracted entry by entry, and broadcasting between arrays of
    different shapes is outside the model. *)
Definition np_sub (obj0 obj1 : pyval) : outcome npval :=
  match obj0, obj1 with
  | VArr a0, VArr a1 =>
      if bool_decide (shape a0 = shape a1)
      then Return (NArray (mkArr (shape a0) (zip_with f64_sub (data a0) (data a1))))
      else Unmodelled
  | VInt z0, VInt z1 => Return (NInt (z0 - z1))
  | VInt z0, VFloat y =>
      match float (PInt z0) with
      | Return x => Return (NScalar (f64_sub x y))
      | Raise e => Raise e
      | Unmodelled => Unmodelled
      end
  | VFloat x, VInt z1 =>
      match float (PInt z1) with
      | Return y => Return (NScalar (f64_sub x y))
      | Raise e => Raise e
      | Unmodelled => Unmodelled
      end
  | VFloat x, VFloat y => Return (NScalar (f64_sub x y))
  | _, _ => Unmodelled
  end.

(** [fabs(x)]: the absolute value as a [float64]; an int is converted
    first. *)
Definition fabs (v : npval) : outcome npval :=
  match v with
  | NInt z =>
      if int64 z then Return (NScalar (f64_abs (f64_of_int z))) else Unmodelled
  | NScalar x => Return (NScalar (f64_abs x))
  | NArray a => Return (NArray (mkArr (shape a) (map f64_abs (data a))))
  end.

(** [x * 100] *)
Definition times100 (v : npval) : npval :=
  match v with
  | NInt z => NInt (z * 100)
  | NScalar x => NScalar (f64_mul x (f64_of_int 100))
  | NArray a =>
      NArray (mkArr (shape a) (map (fun x => f64_mul x (f64_of_int 100)) (data a)))
  end.

(** [where(xs > lim)]: the positions whose entry exceeds [lim]. *)
Fixpoint where_from (i : nat) (xs : list double) (lim : double) : list nat :=
  match xs with
  | [] => []
  | x :: xs' =>
      if f64_lt lim x then i :: where_from (S i) xs' lim
      else where_from (S i) xs' lim
  end.
Definition where_gt (xs : list double) (lim : double) : list nat :=
  where_from 0 xs lim.

(** [xs[idx]]: the entries at the given positions. *)
Definition gather (xs : list double) (idx : list nat) : list double :=
  omap (fun i => xs !! i) idx.

(** [xs[idx] = vals] *)
Definition scatter (xs : list double) (idx : list nat) (vals : list double)
    : list double :=
  foldl (fun acc iv => <[fst iv := snd iv]> acc) xs (zip idx vals).

(** [diff[idx] /= den[idx]] *)
Definition idiv_at (diff den : list double) (idx : list nat) : list double :=
  scatter diff idx (zip_with f64_div (gather diff idx) (gather den idx)).

(** One step of [numpy]'s maximum: the accumulated value is kept when it
    is NaN or at least the next entry, so that a NaN propagates. *)
Definition np_maximum (acc y : double) : double :=
  if f64_le y acc || f64_is_nan acc then acc else y.

(** [diff.max()]; [numpy] refuses an array without entries. *)
Definition arr_max (xs : list double) : outcome double :=
  match xs with
  | [] => Raise (ValueError (mkMsg
            "zero-size array to reduction operation maximum which has no identity" []))
  | x :: xs' => Return (foldl np_maximum x xs')
  end.

(** [obj0 != obj1] in the string branch *)
Definition str_ne (obj0 obj1 : pyval) : bool :=
  match obj0, obj1 with
  | VStr s0, VStr s1 => negb (String.eqb s0 s1)
  | _, _ => true
  end.

(** The zero guard of [directCompare]: lines 349-353.  An int is compared
    with the epsilon exactly, so it exceeds it when it is at least 1, and
    it divides as the double [numpy] converts it to; one that is too large
    for a double raises [OverflowError]. *)
Definition zero_guard (obj0 : pyval) (diff : npval) : outcome npval :=
  match obj0, diff with
  | VArr a0, NArray d =>
      let nonZI := where_gt (data a0) LOWER_LIM_DIVISION in
      Return (NArray (mkArr (shape d) (idiv_at (data d) (data a0) nonZI)))
  | VFloat x, NScalar d =>
      if f64_lt LOWER_LIM_DIVISION x then Return (NScalar (f64_div d x))
      else Return (NScalar d)
  | VInt z, NScalar d =>
      if (0 <? z)%Z then
        if int64 z then Return (NScalar (f64_div d (f64_of_int z)))
        else if (FLOAT_OVERFLOW <=? z)%Z then Raise (OtherError "OverflowError")
        else Unmodelled
      else Return (NScalar d)
  | _, _ => Unmodelled
  end.

(** The error [directCompare] raises for a value kind it is not
    configured for. *)
Definition unsupported_type_error (tp : pytype) : exn :=
  TypeError (mkMsg
    "directCompare is not configured to make tests on objects of type {tp}"
    [AType tp]).

Definition directCompare (obj0 obj1 : pyval) (lower upper : double)
    (quantity : string) : M bool :=
  let type0 := type obj0 in
  let type1 := type obj1 in
  if (negb (type_in type0 COMPARE_NUMERICS) || negb (type_in type1 COMPARE_NUMERICS))
     && negb (bool_decide (type0 = type obj1)) then
    differentTypes type0 type1 quantity ;;;
    ret false
  else if bool_decide (type0 = TStr) then
    if str_ne obj0 obj1 then
      notIdentical obj0 obj1 quantity ;;;
      ret false
    else
      identical obj0 obj1 quantity ;;;
      ret true
  else if type_in type0 [TFloat; TInt; TNdarray] then
    d <- lift (np_sub obj0 obj1) ;;
    d <- lift (fabs d) ;;
    diff <- lift (zero_guard obj0 (times100 d)) ;;
    maxDiff <- lift (match diff with
                     | NArray a => arr_max (data a)
                     | NScalar x => Return x
                     | NInt _ => Unmodelled
                     end) ;;
    if f64_lt maxDiff LOWER_LIM_DIVISION then
      identical obj0 obj1 quantity ;;;
      ret true
    else if f64_le maxDiff lower then
      acceptableLow obj0 obj1 quantity ;;;
      ret true
    else if f64_le upper maxDiff then
      outsideTols obj0 obj1 quantity ;;;
      ret false
    else
      acceptableHigh obj0 obj1 quantity ;;;
      ret true
  else
    raise (unsupported_type_error type0).

(** *** [getKeyMatchingShapes] *)

(** The five collections the loop of [getKeyMatchingShapes] fills. *)
Record shapeAcc := mkAcc {
  missing0 : gset string;
  missing1 : gset string;
  badTypes : gmap string (pytype * pytype);
  badShapes : gmap string (list nat * list nat);
  goodKeys : gset string
}.

Definition acc0 : shapeAcc := mkAcc ∅ ∅ ∅ ∅ ∅.

(** [key not in m] *)
Definition not_in (key : string) (m : gmap string pyval) : bool :=
  match m !! key with
  | None => true
  | Some _ => false
  end.

(** One turn of the loop over [keySet]. *)
Definition shape_step (map0 map1 : gmap string pyval) (acc : shapeAcc)
    (key : string) : shapeAcc :=
  if not_in key map0 || not_in key map1 then
    mkAcc (if not_in key map0 then {[key]} ∪ missing0 acc else missing0 acc)
          (if not_in key map1 then {[key]} ∪ missing1 acc else missing1 acc)
          (badTypes acc) (badShapes acc) (goodKeys acc)
  else
    match map0 !! key, map1 !! key with
    | Some v0, Some v1 =>
        let t0 := type v0 in
        let t1 := type v1 in
        if negb (bool_decide (t0 = t1)) then
          mkAcc (missing0 acc) (missing1 acc)
                (<[key := (t0, t1)]> (badTypes acc)) (badShapes acc) (goodKeys acc)
        else
          match v0, v1 with
          | VArr a0, VArr a1 =>
              if negb (bool_decide (shape a0 = shape a1)) then
                mkAcc (missing0 acc) (missing1 acc) (badTypes acc)
                      (<[key := (shape a0, shape a1)]> (badShapes acc))
                      (goodKeys acc)
              else
                mkAcc (missing0 acc) (missing1 acc) (badTypes acc)
                      (badShapes acc) ({[key]} ∪ goodKeys acc)
          | _, _ =>
              mkAcc (missing0 acc) (missing1 acc) (badTypes acc)
                    (badShapes acc) ({[key]} ∪ goodKeys acc)
          end
    | _, _ => acc
    end.

Definition shape_loop (keySet : list string) (map0 map1 : gmap string pyval)
    : shapeAcc :=
  foldl (shape_step map0 map1) acc0 keySet.

(** Truth value of a string key: non-emptiness. *)
Definition key_truthy (k : string) : bool :=
  match k with
  | EmptyString => false
  | String _ _ => true
  end.

(** [any(s)] over a set of keys: some key is truthy. *)
Definition any_key (s : gset string) : bool := existsb key_truthy (elements s).

Definition getKeyMatchingShapes (keySet : list string)
    (map0 map1 : gmap string pyval) (desc0 desc1 : string) : M (gset string) :=
  let acc := shape_loop keySet map0 map1 in
  (if any_key (missing0 acc) || any_key (missing1 acc)
   then logMissingKeys desc0 desc1 (missing0 acc) (missing1 acc) HError
   else ret tt) ;;;
  (if negb (bool_decide (badTypes acc = ∅))
   then logBadTypes desc0 desc1 (badTypes acc)
   else ret tt) ;;;
  (if negb (bool_decide (badShapes acc = ∅))
   then logBadShapes desc0 desc1 (badShapes acc)
   else ret tt) ;;;
  ret (goodKeys acc).

(** ** [serpentTools.objects.base] *)

Definition DEF_COMP_LOWER : pynum := PInt 0.
Definition DEF_COMP_UPPER : pynum := PInt 10.
Definition DEF_COMP_SIGMA : pynum := PInt 2.

(** A class: its identity (what [id] tells apart: each [class] statement
    that runs makes a class with an identity of its own), its [__name__]
    and its direct bases. *)
#[warnings="-register-all"]
Inductive pyclass :=
  | PyClass (cid : nat) (name : string) (bases : list pyclass).

Definition class_id (c : pyclass) : nat :=
  match c with PyClass i _ _ => i end.
Definition class_name (c : pyclass) : string :=
  match c with PyClass _ n _ => n end.
Definition class_bases (c : pyclass) : list pyclass :=
  match c with PyClass _ _ bs => bs end.

(** [c is d]: one and the same class, identity included. *)
Fixpoint class_eqb (c d : pyclass) {struct c} : bool :=
  match c, d with
  | PyClass i n bs, PyClass j m ds =>
      Nat.eqb i j && String.eqb n m &&
      (fix all2 (l1 l2 : list pyclass) {struct l1} : bool :=
         match l1, l2 with
         | [], [] => true
         | x :: xs, y :: ys => class_eqb x y && all2 xs ys
         | _, _ => false
         end) bs ds
  end.

(** [issubclass(c, d)]: [d] is [c] or an ancestor of [c] (no class
    registers virtual subclasses). *)
Fixpoint issubclass (c d : pyclass) {struct c} : bool :=
  class_eqb c d ||
  match c with
  | PyClass _ _ bs => existsb (fun b => issubclass b d) bs
  end.

(** An instance: its class and what [str] makes of it. *)
Record pyobj := mkObj { obj_class : pyclass; obj_str : string }.

(** [isinstance(o, c)] *)
Definition isinstance (o : pyobj) (c : pyclass) : bool :=
  issubclass (obj_class o) c.

Definition object : pyclass := PyClass 0 "object" [].
Definition BaseObject : pyclass := PyClass 1 "BaseObject" [object].
Definition NamedObject : pyclass := PyClass 2 "NamedObject" [BaseObject].
Definition DetectorBase : pyclass := PyClass 3 "DetectorBase" [NamedObject].

(** [BaseObject._compare]: the base contract provides no comparison. *)
Definition BaseObject__compare (self other : pyobj) (lower upper : double)
    (sigma : Z) : M bool :=
  raise NotImplementedError.

(** The error of the class-compatibility check. *)
Definition class_error (oName name : string) : exn :=
  TypeError (mkMsg
    "Cannot compare against {} - not instance nor subclass of {}"
    [AStr oName; AStr name]).

Definition _checkCompareObj (self other : pyobj) : M unit :=
  if negb (isinstance other (obj_class self)
           || issubclass (obj_class other) (obj_class self)) then
    let oName := class_name (obj_class other) in
    let name := class_name (obj_class self) in
    raise (class_error oName name)
  else ret tt.

(** The confidence shown for [sigma]:
    [sigmaDict.get(sigma, '>= 99.7') if sigma else 0]. *)
Definition confidence (sigma : Z) : fmtarg :=
  if (sigma =? 0)%Z then AInt 0
  else if (sigma =? 1)%Z then AInt 68
  else if (sigma =? 2)%Z then AInt 95
  else AStr ">= 99.7".

Definition _compareLogPreMsg (self other : pyobj) (lower upper : double)
    (sigma : Z) : M unit :=
  info
    ([mkMsg "Comparing > against < with the following tolerances:" []] ++
     map (fun lo => mkMsg "{} {}" [AStr (fst lo); AStr (obj_str (snd lo))])
         [(">", self); ("<", other)] ++
     map (fun tv => mkMsg "{} tolerance: {:5.3F} [%]" [AStr (fst tv); AFloat (snd tv)])
         [("Lower", lower); ("Upper", upper)] ++
     [mkMsg "Confidence interval for statistical values: {:d} sigma or {} %"
            [AInt sigma; confidence sigma]]).

(** The two configuration errors of [compare]. *)
Definition order_error (upper lower : double) : exn :=
  ValueError (mkMsg
    "Upper limit must be greater than lower. {} is not greater than {}"
    [AFloat upper; AFloat lower]).

Definition arg_of (item : pynum) : fmtarg :=
  match item with
  | PInt z => AInt z
  | PFloat x => AFloat x
  end.

Definition negative_error (key : string) (item : pynum) : exn :=
  ValueError (mkMsg "{} must be non-negative, is {}" [AStr key; arg_of item]).

(** The loop of [compare] over [(upper, lower, sigma)]: the first negative
    item raises. *)
Fixpoint check_non_negative (items : list (pynum * string)) : M unit :=
  match items with
  | [] => ret tt
  | (item, key) :: rest =>
      if pynum_neg item then
        raise (negative_error key item)
      else check_non_negative rest
  end.

Section Compare.

(** The comparison routine [self._compare] resolves to; every concrete
    comparable class supplies its own. *)
Variable _compare : pyobj -> pyobj -> double -> double -> Z -> M bool.

Definition compare (self other : pyobj) (lower upper sigma : pynum)
    (verbosity : option string) : M bool :=
  upper <- lift (float upper) ;;
  lower <- lift (float lower) ;;
  sigma <- lift (int sigma) ;;
  let sigma := Z.max 0 sigma in
  if f64_lt upper lower then
    raise (order_error upper lower)
  else
    check_non_negative
      [(PFloat upper, "upper"); (PFloat lower, "lower"); (PInt sigma, "sigma")] ;;;
    _checkCompareObj self other ;;;
    previousVerb <- match verbosity with
                    | Some v =>
                        p <- get_verbosity ;;
                        set_verbosity v ;;;
                        ret (Some p)
                    | None => ret None
                    end ;;
    _compareLogPreMsg self other lower upper sigma ;;;
    areSimilar <- _compare self other lower upper sigma ;;
    match previousVerb with
    | Some p => set_verbosity p
    | None => ret tt
    end ;;;
    ret areSimilar.

End Compare.

(** ** Vocabulary of the specification *)

(** The world after the notifications [ns] were emitted from [w]. *)
Definition add_log (w : world) (ns : list notice) : world :=
  mkWorld (rc_verbosity w) (log w ++ ns).

(** The five verdicts of the data model. *)
Inductive verdict :=
  | Identical
  | AcceptableLow
  | AcceptableHigh
  | OutsideTolerance
  | DifferentTypes.

(** Identical, AcceptableLow and AcceptableHigh succeed; OutsideTolerance
    and DifferentTypes fail. *)
Definition succeeds (v : verdict) : bool :=
  match v with
  | Identical | AcceptableLow | AcceptableHigh => true
  | OutsideTolerance | DifferentTypes => false
  end.

(** The notification that carries a verdict. *)
Definition verdict_notice (v : verdict) (obj0 obj1 : pyval)
    (quantity : string) : notice :=
  match v with
  | Identical => NIdentical obj0 obj1 quantity
  | AcceptableLow => NAcceptableLow obj0 obj1 quantity
  | AcceptableHigh => NAcceptableHigh obj0 obj1 quantity
  | OutsideTolerance => NOutsideTols obj0 obj1 quantity
  | DifferentTypes => NDifferentTypes (type obj0) (type obj1) quantity
  end.

(** A comparison that ends with verdict [v]: the boolean returned and the
    single notification emitted. *)
Definition concludes (v : verdict) (obj0 obj1 : pyval) (quantity : string)
    (w : world) : outcome bool * world :=
  (Return (succeeds v), add_log w [verdict_notice v obj0 obj1 quantity]).

(** The epsilon of the specification: [1e-8], the double nearest to
    [10^-8]. *)
Definition EPSILON : double := f64_ratio 1 100000000.

(** The verdict ladder of section 4.1, in the order of the spec. *)
Definition ladder (m lower upper : double) : verdict :=
  if f64_lt m EPSILON then Identical
  else if f64_le m lower then AcceptableLow
  else if f64_le upper m then OutsideTolerance
  else AcceptableHigh.

(** What [directCompare] reduces two numeric operands to before it
    enters the ladder (lines 348-354): the difference, its absolute value
    times 100, the zero guard and the maximum. *)
Definition metric (obj0 obj1 : pyval) : outcome double :=
  match np_sub obj0 obj1 with
  | Return d =>
      match fabs d with
      | Return d =>
          match zero_guard obj0 (times100 d) with
          | Return (NArray a) => arr_max (data a)
          | Return (NScalar x) => Return x
          | Return (NInt _) => Unmodelled
          | Raise e => Raise e
          | Unmodelled => Unmodelled
          end
      | Raise e => Raise e
      | Unmodelled => Unmodelled
      end
  | Raise e => Raise e
  | Unmodelled => Unmodelled
  end.

(** [x * 100] on doubles *)
Definition percent (x : double) : double := f64_mul x (f64_of_int 100).

(** The difference of one element in percent, relative to the reference
    [a] wherever [a] exceeds the epsilon and absolute elsewhere. *)
Definition rel_diff (a b : double) : double :=
  if f64_lt EPSILON a then f64_div (percent (f64_abs (f64_sub a b))) a
  else percent (f64_abs (f64_sub a b)).

(** The same difference when the reference is the int [a]: the int
    exceeds the epsilon when it is positive, and the operations are those
    of the doubles, on the operands as doubles ([d] is the absolute
    difference of the two operands). *)
Definition int_rel_diff (a : Z) (d : double) : double :=
  if (0 <? a)%Z then f64_div (percent d) (f64_of_int a) else percent d.

(** The per-element differences of two operands: one for two scalars, one
    per entry for two arrays. *)
Definition elem_diffs (obj0 obj1 : pyval) : list double :=
  match obj0, obj1 with
  | VArr a0, VArr a1 => zip_with rel_diff (data a0) (data a1)
  | VFloat x, VFloat y => [rel_diff x y]
  | VFloat x, VInt z => [rel_diff x (f64_of_int z)]
  | VInt z, VFloat y => [int_rel_diff z (f64_abs (f64_sub (f64_of_int z) y))]
  | VInt z0, VInt z1 => [int_rel_diff z0 (f64_abs (f64_of_int (z0 - z1)))]
  | _, _ => []
  end.




(** The type gate of [directCompare] as a proposition: the two values are
    not both of numeric scalar kind, and their concrete types differ. *)
Definition mismatch (obj0 obj1 : pyval) : Prop :=
  (type obj0 ∉ COMPARE_NUMERICS ∨ type obj1 ∉ COMPARE_NUMERICS)
  ∧ type obj0 ≠ type obj1.

(** What [getKeyMatchingShapes] decides about one key [k]. *)
Section KeyFacts.
Context (map0 map1 : gmap string pyval).

(** [k] is accepted: present in both maps with values of one concrete
    type and, for two arrays, of one shape. *)
Definition accepted (k : string) : Prop :=
  ∃ v0 v1, map0 !! k = Some v0 ∧ map1 !! k = Some v1 ∧ type v0 = type v1
           ∧ ∀ a0 a1, v0 = VArr a0 → v1 = VArr a1 → shape a0 = shape a1.

(** [k] is present in both maps with values of the two different types
    [p]. *)
Definition type_clash (k : string) (p : pytype * pytype) : Prop :=
  ∃ v0 v1, map0 !! k = Some v0 ∧ map1 !! k = Some v1
           ∧ type v0 ≠ type v1 ∧ p = (type v0, type v1).

(** [k] holds an array in both maps, of the two different shapes [p]. *)
Definition shape_clash (k : string) (p : list nat * list nat) : Prop :=
  ∃ a0 a1, map0 !! k = Some (VArr a0) ∧ map1 !! k = Some (VArr a1)
           ∧ shape a0 ≠ shape a1 ∧ p = (shape a0, shape a1).

(** The collections [acc] record exactly the keys of [seen], each under
    the heading that applies to it. *)
Definition records (seen : list string) (acc : shapeAcc) : Prop :=
  (∀ k, k ∈ goodKeys acc ↔ k ∈ seen ∧ accepted k)
  ∧ (∀ k, k ∈ missing0 acc ↔ k ∈ seen ∧ map0 !! k = None)
  ∧ (∀ k, k ∈ missing1 acc ↔ k ∈ seen ∧ map1 !! k = None)
  ∧ (∀ k p, badTypes acc !! k = Some p ↔ k ∈ seen ∧ type_clash k p)
  ∧ (∀ k p, badShapes acc !! k = Some p ↔ k ∈ seen ∧ shape_clash k p).
End KeyFacts.

#[global] Instance mismatch_dec obj0 obj1 : Decision (mismatch obj0 obj1).
Proof. unfold mismatch. apply _. Defined.

(** The value kinds [directCompare] is configured for. *)
Definition SUPPORTED : list pytype := [TStr; TInt; TFloat; TNdarray].

Definition is_missing_keys (n : notice) : bool :=
  match n with
  | NMissingKeys _ _ _ _ _ => true
  | _ => false
  end.

Definition is_different_types (n : notice) : bool :=
  match n with
  | NDifferentTypes _ _ _ => true
  | _ => false
  end.

(** Number of missing-keys notifications among [ns]. *)
Definition count_missing_keys (ns : list notice) : nat :=
  length (List.filter is_missing_keys ns).

(** Size of a class: the number of classes in its tree of bases. *)
Fixpoint class_size (c : pyclass) : nat :=
  match c with
  | PyClass _ _ bs => S (list_sum (map class_size bs))
  end.

(** The arguments of [compare] convert: [float(upper)] is [u],
    [float(lower)] is [l] and [int(sigma)] is [s]. *)
Definition converted (lower upper sigma : pynum) (l u : double) (s : Z) : Prop :=
  float upper = Return u ∧ float lower = Return l ∧ int sigma = Return s.

(** The tolerances, as floats, fail the validation of [compare]. *)
Definition invalid_tolerances (l u : double) : Prop :=
  f64_lt u l = true ∨ f64_lt l f64_zero = true ∨ f64_lt u f64_zero = true.

(** The tolerances, as floats, pass the validation of [compare]: none of
    its three comparisons holds. *)
Definition valid_tolerances (l u : double) : Prop :=
  f64_lt u l = false ∧ f64_lt u f64_zero = false ∧ f64_lt l f64_zero = false.

(** What [compare] runs once its two checks have passed: the scoped
    override of the verbosity, the preamble, the delegated comparison and
    the restoration (lines 84-96). *)
Definition delegate (cmp : pyobj -> pyobj -> double -> double -> Z -> M bool)
    (self other : pyobj) (lower upper : double) (sigma : Z)
    (verbosity : option string) : M bool :=
  previousVerb <- match verbosity with
                  | Some v =>
                      p <- get_verbosity ;;
                      set_verbosity v ;;;
                      ret (Some p)
                  | None => ret None
                  end ;;
  _compareLogPreMsg self other lower upper sigma ;;;
  areSimilar <- cmp self other lower upper sigma ;;
  match previousVerb with
  | Some p => set_verbosity p
  | None => ret tt
  end ;;;
  ret areSimilar.

(** A comparison routine whose result and notifications are a function of
    its arguments: it reads nothing of the process state and only appends
    to the notification stream. *)
Definition stable (cmp : pyobj -> pyobj -> double -> double -> Z -> M bool) : Prop :=
  ∀ self other lower upper sigma,
    ∃ r ns, ∀ w, cmp self other lower upper sigma w = (r, add_log w ns).

(** A comparison routine that raises no [ValueError] of its own. *)
Definition no_value_error (cmp : pyobj -> pyobj -> double -> double -> Z -> M bool) : Prop :=
  ∀ self other lower upper sigma w m,
    fst (cmp self other lower upper sigma w) ≠ Raise (ValueError m).

(** A comparison routine that raises no [TypeError] of its own. *)
Definition no_type_error (cmp : pyobj -> pyobj -> double -> double -> Z -> M bool) : Prop :=
  ∀ self other lower upper sigma w m,
    fst (cmp self other lower upper sigma w) ≠ Raise (TypeError m).

(** A sample comparable class: its [_compare] compares one stored value
    of each operand (here two fixed floats) with [directCompare]. *)
Definition Sample__compare (self other : pyobj) (lower upper : double)
    (sigma : Z) : M bool :=
  directCompare (VFloat (f64_of_int 1)) (VFloat (f64_ratio 3 2)) lower upper "value".

Definition w0 : world := mkWorld "warning" [].

(** ** Further vocabulary of the comparison utilities *)


(** [k] is a key of the collection handed to [getCommonKeys]: a key of
    the dictionary, or one of the items of the iterable. *)
Definition has_key (d : keysrc) (k : string) : Prop :=
  match d with
  | Dict m => is_Some (m !! k)
  | Iter ks => k ∈ ks
  end.

(** [k] is a key of the first collection only. *)
Definition only_in (d0 d1 : keysrc) (k : string) : Prop :=
  has_key d0 k ∧ ¬ has_key d1 k.

(** [d] is [c] or one of its ancestors: the reflexive and transitive
    closure of "is a direct base of". *)
Inductive subclass_of : pyclass → pyclass → Prop :=
  | subclass_refl (c : pyclass) : subclass_of c c
  | subclass_step (c b d : pyclass) :
      b ∈ class_bases c → subclass_of b d → subclass_of c d.

(** The float an int or a float stands for: an int is rounded to the
    nearest double, and has none when it is beyond their range. *)
Definition number_value (v : pyval) : option double :=
  match v with
  | VInt z => if (Z.abs z <? FLOAT_OVERFLOW)%Z then Some (f64_of_int z) else None
  | VFloat x => Some x
  | _ => None
  end.

(** A missing-keys report with its two sides exchanged. *)
Definition mirror (n : notice) : notice :=
  match n with
  | NMissingKeys desc0 desc1 in0 in1 via => NMissingKeys desc1 desc0 in1 in0 via
  | _ => n
  end.

(** ** Strings

    A [str] is modelled as an ASCII text: [lower], [upper], [capitalize]
    and [split] act on the letters A-Z and a-z and on the ASCII white
    space, as Python does on such text. *)

Definition is_upper (c : Ascii.ascii) : bool :=
  let n := Ascii.nat_of_ascii c in (65 <=? n)%nat && (n <=? 90)%nat.
Definition is_lower (c : Ascii.ascii) : bool :=
  let n := Ascii.nat_of_ascii c in (97 <=? n)%nat && (n <=? 122)%nat.

Definition char_lower (c : Ascii.ascii) : Ascii.ascii :=
  if is_upper c then Ascii.ascii_of_nat (Ascii.nat_of_ascii c + 32) else c.
Definition char_upper (c : Ascii.ascii) : Ascii.ascii :=
  if is_lower c then Ascii.ascii_of_nat (Ascii.nat_of_ascii c - 32) else c.

(** White space as [str.split()] sees it: tab, line feed, vertical tab,
    form feed, carriage return, the four separators 28-31 and the space. *)
Definition is_space (c : Ascii.ascii) : bool :=
  let n := Ascii.nat_of_ascii c in
  ((9 <=? n)%nat && (n <=? 13)%nat) || ((28 <=? n)%nat && (n <=? 32)%nat).

(** [s.lower()] *)
Fixpoint str_lower (s : string) : string :=
  match s with
  | EmptyString => EmptyString
  | String c r => String (char_lower c) (str_lower r)
  end.

(** [s.upper()] *)
Fixpoint str_upper (s : string) : string :=
  match s with
  | EmptyString => EmptyString
  | String c r => String (char_upper c) (str_upper r)
  end.

(** [s.capitalize()]: the first character in upper case, the rest in
    lower case. *)
Definition str_capitalize (s : string) : string :=
  match s with
  | EmptyString => EmptyString
  | String c r => String (char_upper c) (str_lower r)
  end.

(** [s.split(sep)] for a separator of one character: the pieces between
    the separators, empty pieces included. *)
Fixpoint str_split (sep : Ascii.ascii) (s : string) : list string :=
  match s with
  | EmptyString => [EmptyString]
  | String c r =>
      if Ascii.eqb c sep then EmptyString :: str_split sep r
      else match str_split sep r with
           | piece :: pieces => String c piece :: pieces
           | [] => [String c EmptyString]
           end
  end.

(** [s.split()]: the maximal runs of characters that are not white
    space. *)
Fixpoint str_words (s : string) : list string :=
  match s with
  | EmptyString => []
  | String c r =>
      if is_space c then str_words r
      else match r with
           | EmptyString => [String c EmptyString]
           | String c' _ =>
               if is_space c' then String c EmptyString :: str_words r
               else match str_words r with
                    | word :: rest => String c word :: rest
                    | [] => [String c EmptyString]
                    end
           end
  end.

(** [sep.join(parts)] *)
Definition str_join (sep : string) (parts : list string) : string :=
  String.concat sep parts.

(** The characters of a string. *)
Fixpoint chars (s : string) : list Ascii.ascii :=
  match s with
  | EmptyString => []
  | String c r => c :: chars r
  end.

Definition underscore : Ascii.ascii := Ascii.ascii_of_nat 95.

(** *** [convertVariableName] *)

Definition convertVariableName (variable : string) : string :=
  let lowerSplits := map str_lower (str_split underscore variable) in
  match lowerSplits with
  | [] => EmptyString
  | [first] => first
  | first :: rest =>
      first +:+ str_join EmptyString (map str_capitalize rest)
  end.

(** *** [linkToWiki] *)

Definition LEADER_TO_WIKI : string :=
  "http://serpent.vtt.fi/mediawiki/index.php/".

(** Truth value of the optional [text]: [None] and the empty string are
    false. *)
Definition text_given (text : option string) : option string :=
  match text with
  | Some (String c r) => Some (String c r)
  | _ => None
  end.

Definition linkToWiki (subLink : string) (text : option string) : string :=
  let fullLink := LEADER_TO_WIKI +:+ subLink in
  match text_given text with
  | None => fullLink
  | Some t => "`" +:+ t +:+ " <" +:+ fullLink +:+ ">`_"
  end.

(** *** [str2vec] and [splitValsUncs] *)

(** What [str2vec] accepts: a string, split at white space, or any other
    iterable, taken item by item. *)
Inductive iterable :=
  | IStr (s : string)
  | IItems (items : list pyval).

(** [[of(xx) for xx in vec]]: the conversions in order, stopping at the
    first one that does not return. *)
Fixpoint convert_each {A} (of_ : pyval -> outcome A) (vec : list pyval)
    : outcome (list A) :=
  match vec with
  | [] => Return []
  | xx :: rest =>
      match of_ xx with
      | Return y =>
          match convert_each of_ rest with
          | Return ys => Return (y :: ys)
          | Raise e => Raise e
          | Unmodelled => Unmodelled
          end
      | Raise e => Raise e
      | Unmodelled => Unmodelled
      end
  end.

Definition str2vec {A B} (it : iterable) (of_ : pyval -> outcome A)
    (out : list A -> B) : outcome B :=
  let vec := match it with
             | IStr s => map VStr (str_words s)
             | IItems items => items
             end in
  match convert_each of_ vec with
  | Return ys => Return (out ys)
  | Raise e => Raise e
  | Unmodelled => Unmodelled
  end.

(** [xs[0::2]] and [xs[1::2]] *)
Fixpoint every_other {A} (xs : list A) : list A :=
  match xs with
  | [] => []
  | x :: rest =>
      x :: match rest with
           | [] => []
           | _ :: rest' => every_other rest'
           end
  end.
Definition slice_even {A} (xs : list A) : list A := every_other xs.
Definition slice_odd {A} (xs : list A) : list A := every_other (tail xs).

Section SplitValsUncs.

(** [float(s)] on a string: the number it spells, if it spells one. *)
Variable parse_float : string -> option double.

(** [float(v)] *)
Definition py_float (v : pyval) : outcome double :=
  match v with
  | VInt z => float (PInt z)
  | VFloat x => Return x
  | VBool b => Return (f64_of_int (if b then 1 else 0))
  | VStr s =>
      match parse_float s with
      | Some x => Return x
      | None => Raise (ValueError (mkMsg "could not convert string to float: {}" [AStr s]))
      end
  | VArr a =>
      match data a with
      | [x] => Return x
      | _ => Raise (TypeError (mkMsg "only size-1 arrays can be converted to Python scalars" []))
      end
  | VNone =>
      Raise (TypeError (mkMsg "float() argument must be a string or a number, not {}" [AType TNone]))
  | VOther _ => Unmodelled
  end.

(** The argument of [splitValsUncs]: a vector held in an [ndarray], or
    anything [str2vec] accepts. *)
Inductive vector_source :=
  | FromArray (xs : list double)
  | FromIterable (it : iterable).

Definition splitValsUncs (src : vector_source) (copy : bool)
    : outcome (list double * list double) :=
  match (match src with
         | FromArray xs => Return xs
         | FromIterable it => str2vec it py_float (fun ys => ys)
         end) with
  | Return xs =>
      let vals := slice_even xs in
      let uncs := slice_odd xs in
      Return (vals, uncs)
  | Raise e => Raise e
  | Unmodelled => Unmodelled
  end.

End SplitValsUncs.

(** Entries taken in turn from two vectors: [x1, u1, x2, u2, ...]. *)
Fixpoint interleave {A} (xs us : list A) : list A :=
  match xs with
  | [] => []
  | x :: xs' =>
      x :: match us with
           | [] => xs'
           | u :: us' => u :: interleave xs' us'
           end
  end.

(** [s] without the occurrences of the character [c]. *)
Fixpoint str_remove (c : Ascii.ascii) (s : string) : string :=
  match s with
  | EmptyString => EmptyString
  | String c' r =>
      if Ascii.eqb c' c then str_remove c r else String c' (str_remove c r)
  end.

(** A word as [str.split()] produces them: not empty and free of white
    space. *)
Definition is_word (t : string) : Prop :=
  t ≠ EmptyString ∧ ∀ c, c ∈ chars t → is_space c = false.

(** ** Detectors ([DetectorBase]) *)

(** What a key of [fixed] is mapped to, and what [_getSlices] puts in for
    an axis that is not fixed: an integer, a slice, or anything else
    [numpy] may take as an index. *)
Inductive pyindex :=
  | IdxInt (i : Z)
  | IdxSlice (start stop : Z)
  | IdxOther (name : string).

(** The errors of the detector methods. *)
Inductive det_error :=
  | SerpentToolsException (m : message)
  | KeyError (m : message)
  | IndexError (m : message)
  | NoneTypeError (m : message).

Inductive result (A : Type) :=
  | Ok (a : A)
  | Err (e : det_error).
Arguments Ok {A} a.
Arguments Err {A} e.

(** The warning of [_getSlices]: keys of [fixed] that name no index. *)
Inductive det_warning :=
  | UnmatchedSliceKeys (keys : gset string).

(** A two-dimensional array of a grid: the number of its columns and its
    rows.  The entries of a grid and the bins of an index are never
    computed with, only selected and put together: they are held as
    rationals, among which the floats of a grid and the ints of the bins
    both are. *)
Record grid := mkGrid { ncols : nat; rows : list (list Q) }.

(** A detector: its name, the ordered dictionary [indexes] (or [None]),
    the dictionary [grids], the dictionary [_map] from the names of the
    data sets to the arrays (each possibly [None], and [None] as a whole
    before the reshaping), and what [_isReshaped] answers. *)
Record detector := mkDetector {
  det_name : string;
  indexes : option (list (string * list Z));
  grids : gmap string grid;
  det_map : option (gmap string (option ndarray));
  isReshaped : bool
}.

(** One turn of the loop of [_getSlices] over [self.indexes]. *)
Definition slices_step (fixed : gmap string pyindex)
    (st : gset string * list pyindex) (entry : string * list Z)
    : gset string * list pyindex :=
  let keys := fst st in
  let slices := snd st in
  let key := fst entry in
  if bool_decide (key ∈ keys) then
    match fixed !! key with
    | Some v => (keys ∖ {[key]}, slices ++ [v])
    | None => (keys ∖ {[key]}, slices)
    end
  else (keys, slices ++ [IdxSlice 0 (Z.of_nat (length (snd entry)))]).

Definition _getSlices (self : detector) (fixed : option (gmap string pyindex))
    : result (list pyindex * list det_warning) :=
  let fixed := match fixed with Some f => f | None => ∅ end in
  let keys := dom fixed in
  match indexes self with
  | None => Err (NoneTypeError (mkMsg "'NoneType' object is not iterable" []))
  | Some idx =>
      let st := foldl (slices_step fixed) (keys, []) idx in
      Ok (snd st,
          if any_key (fst st) then [UnmatchedSliceKeys (fst st)] else [])
  end.

(** Truth value of [fixed]: [None] and the empty dictionary are false. *)
Definition fixed_given (fixed : option (gmap string pyindex)) : bool :=
  match fixed with
  | Some f => negb (bool_decide (f = ∅))
  | None => false
  end.

Section Slice.

(** [work[slices]]: the indexing of [numpy]. *)
Variable np_getitem : ndarray -> list pyindex -> result ndarray.

Definition slice (self : detector) (fixed : option (gmap string pyindex))
    (data : string) : result (ndarray * list det_warning) :=
  if negb (isReshaped self) then
    Err (SerpentToolsException (mkMsg "Slicing requires detector to be reshaped" []))
  else
    match det_map self with
    | None => Err (NoneTypeError (mkMsg "argument of type 'NoneType' is not iterable" []))
    | Some m =>
        match m !! data with
        | None =>
            Err (KeyError (mkMsg "Data argument {} not in allowed options\n{}"
                   (AStr data :: map AStr (elements (dom m)))))
        | Some None =>
            Err (SerpentToolsException
                   (mkMsg "{} data for detector {} is None. Cannot perform slicing"
                      [AStr data; AStr (det_name self)]))
        | Some (Some work) =>
            if negb (fixed_given fixed) then Ok (work, [])
            else
              match _getSlices self fixed with
              | Err e => Err e
              | Ok (slices, warnings) =>
                  match np_getitem work slices with
                  | Err e => Err e
                  | Ok view => Ok (view, warnings)
                  end
              end
        end
    end.

End Slice.

(** [key[0].upper()]: the first character of the key in upper case, as a
    string; a key without characters has no first one. *)
Definition first_upper (key : string) : result string :=
  match key with
  | EmptyString => Err (IndexError (mkMsg "string index out of range" []))
  | String c _ => Ok (String (char_upper c) EmptyString)
  end.

Definition _dimInGrids (self : detector) (key : string) : result bool :=
  match first_upper key with
  | Err e => Err e
  | Ok k => Ok (bool_decide (is_Some (grids self !! k)))
  end.

Definition _inGridsAs (self : detector) (qty : string) : result (option grid) :=
  match _dimInGrids self qty with
  | Err e => Err e
  | Ok true =>
      match first_upper qty with
      | Err e => Err e
      | Ok k => Ok (grids self !! k)
      end
  | Ok false => Ok None
  end.

(** [g[:, 0]]: the first column. *)
Definition column0 (g : grid) : result (list Q) :=
  match ncols g with
  | O => Err (IndexError (mkMsg "index 0 is out of bounds for axis 1 with size 0" []))
  | S _ => Ok (omap head (rows g))
  end.

(** [g[-1, 1]]: the second entry of the last row. *)
Definition last_upper (g : grid) : result Q :=
  match last (rows g) with
  | None => Err (IndexError (mkMsg "index -1 is out of bounds for axis 0 with size 0" []))
  | Some row =>
      match row !! 1%nat with
      | Some x => Ok x
      | None => Err (IndexError (mkMsg "index 1 is out of bounds for axis 1" []))
      end
  end.

(** [self.indexes[qty]] in the ordered dictionary. *)
Fixpoint index_bins (idx : list (string * list Z)) (qty : string)
    : option (list Z) :=
  match idx with
  | [] => None
  | (key, bins) :: rest =>
      if String.eqb key qty then Some bins else index_bins rest qty
  end.

Definition no_index_error (qty : string) (idx : list (string * list Z))
    : det_error :=
  KeyError (mkMsg "No index {} found on detector. Bin indexes: {}"
              (AStr qty :: map (fun e => AStr (fst e)) idx)).

Definition _getGrid (self : detector) (qty : string) : result (list Q) :=
  match _inGridsAs self qty with
  | Err e => Err e
  | Ok (Some g) =>
      match column0 g with
      | Err e => Err e
      | Ok lowBounds =>
          match last_upper g with
          | Err e => Err e
          | Ok top => Ok (lowBounds ++ [top])
          end
      end
  | Ok None =>
      match indexes self with
      | None => Err (NoneTypeError (mkMsg "argument of type 'NoneType' is not iterable" []))
      | Some idx =>
          match index_bins idx qty with
          | None => Err (no_index_error qty idx)
          | Some bins =>
              Ok (map inject_Z bins ++ [inject_Z (Z.of_nat (length bins))])
          end
      end
  end.

(** [arange(n)] *)
Definition arange (n : nat) : list Q := map (fun i => inject_Z (Z.of_nat i)) (seq 0 n).

(** [len(a)] of an array: the size of its first axis. *)
Definition arr_len (a : ndarray) : result nat :=
  match shape a with
  | n :: _ => Ok n
  | [] => Err (NoneTypeError (mkMsg "len() of unsized object" []))
  end.

Definition _getPlotXData (self : detector) (qty : option string)
    (ydata : ndarray) : result (list Q * string) :=
  match arr_len ydata with
  | Err e => Err e
  | Ok n =>
      let fallback := (arange n, "Bin Index") in
      match qty with
      | None => Ok fallback
      | Some qty =>
          match _inGridsAs self qty with
          | Err e => Err e
          | Ok (Some xdata) =>
              match column0 xdata with
              | Err e => Err e
              | Ok lows => Ok (lows, qty)
              end
          | Ok None =>
              match indexes self with
              | None => Err (NoneTypeError
                          (mkMsg "argument of type 'NoneType' is not iterable" []))
              | Some idx =>
                  match index_bins idx qty with
                  | Some bins => Ok (map inject_Z bins, qty)
                  | None => Ok fallback
                  end
              end
          end
      end
  end.

(** A grid is well formed when each of its rows has [ncols] entries. *)
Definition wf_grid (g : grid) : Prop := Forall (fun row => length row = ncols g) (rows g).

(** The slice [_getSlices] builds for one index: the value [fixed] gives
    for its key, or else the whole axis. *)
Definition slice_for (fixed : gmap string pyindex) (entry : string * list Z)
    : pyindex :=
  match fixed !! fst entry with
  | Some v => v
  | None => IdxSlice 0 (Z.of_nat (length (snd entry)))
  end.

(** A grid as the readers store them: well formed, with at least the two
    columns of the lower and the upper bounds and at least one row. *)
Definition proper_grid (g : grid) : Prop :=
  wf_grid g ∧ (2 ≤ ncols g)%nat ∧ rows g ≠ [].

(** * Properties *)

(** ** The order of the doubles *)

Ltac f64_cases :=
  repeat match goal with
         | s : bool |- _ => destruct s
         end;
  simpl in *; try congruence; try reflexivity.

Lemma f64_le_trans (x y z : double) :
  f64_le x y = true → f64_le y z = true → f64_le x z = true.
Proof.
  unfold f64_le, SFleb, SFcompare.
  destruct x as [sx|sx| |sx mx ex], y as [sy|sy| |sy my ey],
    z as [sz|sz| |sz mz ez]; f64_cases.
  all: change (PosDef.Pos.compare_cont Eq) with Pos.compare.
  all: destruct (Z.compare_spec ex ey), (Z.compare_spec ey ez),
         (Z.compare_spec ex ez); try lia; try congruence; try reflexivity; subst.
  all: destruct (Pos.compare_spec mx my), (Pos.compare_spec my mz),
         (Pos.compare_spec mx mz); simpl; try lia; try congruence; try reflexivity.
Qed.









(** The constant of the code is the epsilon of the specification, and a
    double. *)
Lemma LOWER_LIM_DIVISION_epsilon : LOWER_LIM_DIVISION = EPSILON.
Proof. vm_compute. reflexivity. Qed.

Lemma LOWER_LIM_DIVISION_valid : f64_valid LOWER_LIM_DIVISION = true.
Proof. vm_compute. reflexivity. Qed.

(** ** Conversions between ints and floats *)

(** [FLOAT_OVERFLOW] is the first integer that rounds to infinity. *)
Lemma FLOAT_OVERFLOW_spec :
  f64_of_int FLOAT_OVERFLOW = S754_infinity false
  ∧ f64_of_int (FLOAT_OVERFLOW - 1) = S754_finite false 9007199254740991 971
  ∧ f64_valid (f64_of_int (FLOAT_OVERFLOW - 1)) = true.
Proof. repeat split; vm_compute; reflexivity. Qed.










(** ** The type gate of [directCompare] *)


Lemma type_in_false (t : pytype) (ts : list pytype) :
  type_in t ts = false ↔ t ∉ ts.
Proof. unfold type_in. apply bool_decide_eq_false. Qed.

(** ** The notification stream *)

Lemma add_log_nil (w : world) : add_log w [] = w.
Proof. destruct w. unfold add_log. simpl. rewrite app_nil_r. reflexivity. Qed.

Lemma add_log_app (w : world) (ns ms : list notice) :
  add_log (add_log w ns) ms = add_log w (ns ++ ms).
Proof. unfold add_log. simpl. rewrite app_assoc. reflexivity. Qed.

(** A report that is emitted only when its condition holds. *)
Lemma report_when (c : bool) (n : notice) (w : world) :
  (if c then emit n else ret tt) w = (Return tt, add_log w (if c then [n] else [])).
Proof. destruct c; [reflexivity|]. unfold ret. rewrite add_log_nil. reflexivity. Qed.

Lemma gate_true (obj0 obj1 : pyval) :
  (negb (type_in (type obj0) COMPARE_NUMERICS)
   || negb (type_in (type obj1) COMPARE_NUMERICS))
  && negb (bool_decide (type obj0 = type obj1)) = true ↔ mismatch obj0 obj1.
Proof.
  unfold mismatch.
  rewrite andb_true_iff, orb_true_iff, !negb_true_iff, !type_in_false,
    bool_decide_eq_false.
  reflexivity.
Qed.

Lemma gate_false (obj0 obj1 : pyval) :
  (negb (type_in (type obj0) COMPARE_NUMERICS)
   || negb (type_in (type obj1) COMPARE_NUMERICS))
  && negb (bool_decide (type obj0 = type obj1)) = false ↔ ¬ mismatch obj0 obj1.
Proof.
  rewrite <- gate_true. destruct (_ && _); split; intros; congruence.
Qed.

Lemma directCompare_mismatch obj0 obj1 lower upper quantity w :
  mismatch obj0 obj1 →
  directCompare obj0 obj1 lower upper quantity w
  = concludes DifferentTypes obj0 obj1 quantity w.
Proof.
  intros H. apply gate_true in H. unfold directCompare. rewrite H.
  reflexivity.
Qed.

(** The run of [directCompare], branch by branch. *)
Lemma directCompare_unfold obj0 obj1 lower upper quantity w :
  directCompare obj0 obj1 lower upper quantity w
  = if (negb (type_in (type obj0) COMPARE_NUMERICS)
        || negb (type_in (type obj1) COMPARE_NUMERICS))
       && negb (bool_decide (type obj0 = type obj1))
    then concludes DifferentTypes obj0 obj1 quantity w
    else if bool_decide (type obj0 = TStr) then
      if str_ne obj0 obj1
      then (Return false, add_log w [NNotIdentical obj0 obj1 quantity])
      else concludes Identical obj0 obj1 quantity w
    else if type_in (type obj0) [TFloat; TInt; TNdarray] then
      match metric obj0 obj1 with
      | Return m => concludes (ladder m lower upper) obj0 obj1 quantity w
      | Raise e => (Raise e, w)
      | Unmodelled => (Unmodelled, w)
      end
    else (Raise (unsupported_type_error (type obj0)), w).
Proof.
  unfold directCompare, metric. rewrite LOWER_LIM_DIVISION_epsilon.
  destruct ((negb (type_in (type obj0) COMPARE_NUMERICS)
             || negb (type_in (type obj1) COMPARE_NUMERICS))
            && negb (bool_decide (type obj0 = type obj1))); [reflexivity|].
  destruct (bool_decide (type obj0 = TStr)).
  { destruct (str_ne obj0 obj1); reflexivity. }
  destruct (type_in (type obj0) [TFloat; TInt; TNdarray]); [|reflexivity].
  unfold bind, lift.
  destruct (np_sub obj0 obj1) as [d|e|]; try reflexivity.
  destruct (fabs d) as [d'|e|]; try reflexivity.
  destruct (zero_guard obj0 (times100 d')) as [[z|x|a]|e|]; try reflexivity.
  - unfold ladder, concludes.
    destruct (f64_lt x EPSILON); [reflexivity|].
    destruct (f64_le x lower); [reflexivity|].
    destruct (f64_le upper x); reflexivity.
  - destruct (arr_max (data a)) as [m|e|]; try reflexivity.
    unfold ladder, concludes.
    destruct (f64_lt m EPSILON); [reflexivity|].
    destruct (f64_le m lower); [reflexivity|].
    destruct (f64_le upper m); reflexivity.
Qed.

(** Without a type mismatch the comparison emits at most one notification,
    never a DifferentTypes one, or raises without emitting anything. *)
Lemma directCompare_match obj0 obj1 lower upper quantity w :
  ¬ mismatch obj0 obj1 →
  (∃ b n, directCompare obj0 obj1 lower upper quantity w
          = (Return b, add_log w [n]) ∧ is_different_types n = false)
  ∨ (∃ e, directCompare obj0 obj1 lower upper quantity w = (Raise e, w))
  ∨ directCompare obj0 obj1 lower upper quantity w = (Unmodelled, w).
Proof.
  intros H. apply gate_false in H. rewrite directCompare_unfold, H.
  destruct (bool_decide (type obj0 = TStr)).
  { destruct (str_ne obj0 obj1); left; eexists _, _; split; reflexivity. }
  destruct (type_in (type obj0) [TFloat; TInt; TNdarray]).
  2: { right; left; eexists; reflexivity. }
  destruct (metric obj0 obj1) as [m|e|].
  2: { right; left; eexists; reflexivity. }
  2: { right; right; reflexivity. }
  left. unfold concludes, ladder.
  destruct (f64_lt m EPSILON); [eexists _, _; split; reflexivity|].
  destruct (f64_le m lower); [eexists _, _; split; reflexivity|].
  destruct (f64_le upper m); eexists _, _; split; reflexivity.
Qed.

(** ** The zero guard and the reduction to the maximum *)











(** ** The verdict ladder *)










(** The comparisons of the ladder are those of the doubles.  [0.34]
    against [0.17] differs by 49.99999999999999 percent in double
    arithmetic, which is below [upper = 50]; [3.0] against [1.0] differs by
    66.66666666666667 percent, which reaches that [upper]. *)
Lemma directCompare_rounding :
  rel_diff (f64_ratio 34 100) (f64_ratio 17 100)
  = S754_finite false 7036874417766399 (-47)
  ∧ f64_of_int 50 = S754_finite false 7036874417766400 (-47)
  ∧ directCompare (VFloat (f64_ratio 34 100)) (VFloat (f64_ratio 17 100))
      (f64_of_int 0) (f64_of_int 50) "values" w0
    = concludes AcceptableHigh (VFloat (f64_ratio 34 100))
        (VFloat (f64_ratio 17 100)) "values" w0
  ∧ directCompare (VFloat (f64_of_int 3)) (VFloat (f64_of_int 1))
      (f64_of_int 0) (f64_ratio 6666666666666667 100000000000000) "values" w0
    = concludes OutsideTolerance (VFloat (f64_of_int 3))
        (VFloat (f64_of_int 1)) "values" w0.
Proof. repeat split; vm_compute; reflexivity. Qed.

(** A reference equal to the epsilon is not above it: the difference stays
    absolute, here [1e-6] instead of 100 percent. *)
Lemma directCompare_at_epsilon :
  let a := VFloat EPSILON in
  let b := VFloat (f64_ratio 2 100000000) in
  elem_diffs a b = [percent (f64_abs (f64_sub EPSILON (f64_ratio 2 100000000)))]
  ∧ directCompare a b (f64_of_int 0) (f64_of_int 10) "values" w0
    = concludes AcceptableHigh a b "values" w0.
Proof. split; vm_compute; reflexivity. Qed.

(** An entry that is infinite in both arrays is identical and yet its
    difference is NaN: the metric is NaN and the comparison returns [True],
    although the other entry is off by 200 percent. *)
Lemma directCompare_nan_entry :
  let a := VArr (mkArr [2%nat] [f64_of_int 1; S754_infinity false]) in
  let b := VArr (mkArr [2%nat] [f64_of_int 3; S754_infinity false]) in
  elem_diffs a b = [f64_of_int 200; S754_nan]
  ∧ directCompare a b (f64_of_int 0) (f64_of_int 10) "values" w0
    = concludes AcceptableHigh a b "values" w0.
Proof. split; vm_compute; reflexivity. Qed.

(** Two arrays of one shape without entries: [numpy] refuses to take the
    maximum and [directCompare] raises. *)
Lemma directCompare_empty_arrays (sh : list nat) lower upper quantity w :
  ∃ m, directCompare (VArr (mkArr sh [])) (VArr (mkArr sh [])) lower upper
         quantity w = (Raise (ValueError m), w).
Proof.
  eexists. unfold directCompare, bind, lift. simpl.
  rewrite (bool_decide_eq_true_2 (sh = sh)) by reflexivity. reflexivity.
Qed.

(** Two ints go through the same ladder: 2 against 1 is off by 50
    percent.  An int beyond the doubles cannot divide the difference:
    [10**400] against itself raises [OverflowError]. *)
Lemma directCompare_ints :
  directCompare (VInt 2) (VInt 1) (f64_of_int 0) (f64_of_int 10) "values" w0
  = concludes OutsideTolerance (VInt 2) (VInt 1) "values" w0
  ∧ directCompare (VInt (10 ^ 400)) (VInt (10 ^ 400)) (f64_of_int 0)
      (f64_of_int 10) "values" w0
    = (Raise (OtherError "OverflowError"), w0).
Proof. split; vm_compute; reflexivity. Qed.

(** ** The verdict DifferentTypes and the unsupported kinds *)

(** Claim C2, as amended.  [directCompare] ends with the verdict
    DifferentTypes, returning [False] at once, if and only if the two
    values are not both of numeric scalar kind (int or float) and their
    concrete types differ; in every other case no DifferentTypes
    notification is emitted at all.  An int and a float are mutually
    comparable and never produce DifferentTypes, while a string or an array
    requires the exact type match. *)
Theorem directCompare_different_types obj0 obj1 lower upper quantity w :
  (directCompare obj0 obj1 lower upper quantity w
   = concludes DifferentTypes obj0 obj1 quantity w ↔ mismatch obj0 obj1)
  ∧ (¬ mismatch obj0 obj1 →
     ∃ ns, snd (directCompare obj0 obj1 lower upper quantity w) = add_log w ns
           ∧ ∀ n, n ∈ ns → is_different_types n = false)
  ∧ (type obj0 ∈ COMPARE_NUMERICS → type obj1 ∈ COMPARE_NUMERICS →
     ¬ mismatch obj0 obj1)
  ∧ (type obj0 ∈ [TStr; TNdarray] ∨ type obj1 ∈ [TStr; TNdarray] →
     (mismatch obj0 obj1 ↔ type obj0 ≠ type obj1)).
Proof.
  assert (Hfree : ¬ mismatch obj0 obj1 →
     ∃ ns, snd (directCompare obj0 obj1 lower upper quantity w) = add_log w ns
           ∧ (∀ n, n ∈ ns → is_different_types n = false)
           ∧ directCompare obj0 obj1 lower upper quantity w
             ≠ concludes DifferentTypes obj0 obj1 quantity w).
  { intros Hm.
    destruct (directCompare_match obj0 obj1 lower upper quantity w Hm)
      as [(b & n & -> & Hn) | [(e & ->) | ->]].
    - exists [n]. split; [reflexivity|]. split.
      + intros n' Hn'. apply list_elem_of_singleton in Hn'. subst n'. exact Hn.
      + unfold concludes, add_log. intros E. inversion E as [[Hb Hl]].
        apply app_inv_head in Hl. inversion Hl; subst n. discriminate Hn.
    - exists []. split; [symmetry; apply add_log_nil|]. split.
      + intros n Hn. inversion Hn.
      + discriminate.
    - exists []. split; [symmetry; apply add_log_nil|]. split.
      + intros n Hn. inversion Hn.
      + discriminate. }
  split; [|split; [|split]].
  - split.
    + intros E. destruct (decide (mismatch obj0 obj1)) as [Hm|Hm]; [exact Hm|].
      destruct (Hfree Hm) as (ns & _ & _ & Hne). contradiction.
    + apply directCompare_mismatch.
  - intros Hm. destruct (Hfree Hm) as (ns & H1 & H2 & _). eauto.
  - intros H0 H1 [[H|H] _]; contradiction.
  - intros Hsa. split; [intros [_ H]; exact H|].
    intros Hne. split; [|exact Hne].
    unfold COMPARE_NUMERICS.
    destruct Hsa as [H|H]; [left|right]; intros Hin;
      repeat (apply elem_of_cons in H as [H|H];
              [rewrite H in Hin;
               repeat (apply elem_of_cons in Hin as [Hin|Hin]; [discriminate|]);
               inversion Hin|]);
      inversion H.
Qed.

(** The amended claim C2 on a string against an array. *)
Lemma directCompare_different_types_witness :
  mismatch (VStr "a") (VArr (mkArr [1%nat] (f64s [1]%Z)))
  ∧ directCompare (VStr "a") (VArr (mkArr [1%nat] (f64s [1]%Z))) (f64_of_int 0) (f64_of_int 10) "values" w0
    = (Return false, add_log w0 [NDifferentTypes TStr TNdarray "values"]).
Proof.
  assert (Hm : mismatch (VStr "a") (VArr (mkArr [1%nat] (f64s [1]%Z)))).
  { apply (proj2 (proj2 (proj2 (proj2
      (directCompare_different_types (VStr "a") (VArr (mkArr [1%nat] (f64s [1]%Z)))
         (f64_of_int 0) (f64_of_int 10) "values" w0))) (or_introl (list_elem_of_here _ _)))).
    discriminate. }
  split; [exact Hm|].
  exact (proj2 (proj1 (directCompare_different_types _ _ (f64_of_int 0) (f64_of_int 10) "values" w0)) Hm).
Defined.

(** Claim C2 as stated fails on an int against a string: the verdict is
    DifferentTypes although one of the two values is of numeric scalar
    kind, so it is not the case that neither is. *)
Lemma directCompare_different_types_counterexample :
  directCompare (VInt 1) (VStr "a") (f64_of_int 0) (f64_of_int 10) "values" w0
  = (Return false, add_log w0 [NDifferentTypes TInt TStr "values"])
  ∧ ¬ ((type (VInt 1) ∉ COMPARE_NUMERICS) ∧ (type (VStr "a") ∉ COMPARE_NUMERICS)
       ∧ (type (VInt 1) ≠ type (VStr "a"))).
Proof.
  split; [reflexivity|].
  intros (H & _). apply H. right. left.
Qed.

(** Claim C5, as amended.  When the type of either value is outside
    {string, int, float, numeric array}, [directCompare] raises the
    unsupported-type [TypeError], without any notification, exactly when
    the two values have the same concrete type; when their types differ the
    type gate comes first and the call returns [False] with the verdict
    DifferentTypes. *)
Theorem directCompare_unsupported obj0 obj1 lower upper quantity w :
  type obj0 ∉ SUPPORTED ∨ type obj1 ∉ SUPPORTED →
  (type obj1 = type obj0 →
   directCompare obj0 obj1 lower upper quantity w
   = (Raise (unsupported_type_error (type obj0)), w))
  ∧ (type obj1 ≠ type obj0 →
     directCompare obj0 obj1 lower upper quantity w
     = concludes DifferentTypes obj0 obj1 quantity w).
Proof.
  intros Hu. split.
  - intros E.
    assert (H0 : type obj0 ∉ SUPPORTED) by (destruct Hu as [H|H]; [|rewrite <- E]; exact H).
    unfold directCompare. rewrite E.
    rewrite (bool_decide_eq_true_2 (type obj0 = type obj0)) by reflexivity.
    rewrite andb_false_r.
    assert (Hs : bool_decide (type obj0 = TStr) = false).
    { apply bool_decide_eq_false. intros Es. apply H0. rewrite Es. left. }
    assert (Hn : type_in (type obj0) [TFloat; TInt; TNdarray] = false).
    { apply type_in_false. intros Hin. apply H0. unfold SUPPORTED.
      repeat (apply elem_of_cons in Hin as [->|Hin]; [apply list_elem_of_In; simpl; tauto|]).
      inversion Hin. }
    rewrite Hs, Hn. reflexivity.
  - intros Hne. apply directCompare_mismatch. split; [|congruence].
    unfold SUPPORTED, COMPARE_NUMERICS in *.
    destruct Hu as [H|H]; [left|right]; intros Hin; apply H;
      repeat (apply elem_of_cons in Hin as [->|Hin]; [apply list_elem_of_In; simpl; tauto|]);
      inversion Hin.
Qed.

(** The amended claim C5 on [None] against [None] and against a float. *)
Lemma directCompare_unsupported_witness :
  directCompare VNone VNone (f64_of_int 0) (f64_of_int 10) "values" w0
  = (Raise (unsupported_type_error TNone), w0)
  ∧ directCompare VNone (VFloat (f64_of_int 1)) (f64_of_int 0) (f64_of_int 10) "values" w0
    = (Return false, add_log w0 [NDifferentTypes TNone TFloat "values"]).
Proof.
  assert (H : type VNone ∉ SUPPORTED ∨ type VNone ∉ SUPPORTED).
  { left. unfold SUPPORTED. simpl. intros Hin.
    repeat (apply elem_of_cons in Hin as [Hin|Hin]; [discriminate|]).
    inversion Hin. }
  split.
  - apply (proj1 (directCompare_unsupported VNone VNone (f64_of_int 0) (f64_of_int 10) "values" w0 H)).
    reflexivity.
  - assert (H' : type VNone ∉ SUPPORTED ∨ type (VFloat (f64_of_int 1)) ∉ SUPPORTED).
    { destruct H as [H|H]; left; exact H. }
    apply (proj2 (directCompare_unsupported VNone (VFloat (f64_of_int 1)) (f64_of_int 0) (f64_of_int 10) "values" w0 H')).
    discriminate.
Defined.

(** Claim C5 as stated fails on a bool against an int: bool is outside the
    supported kinds, and yet the call returns a boolean with the verdict
    DifferentTypes instead of raising. *)
Lemma directCompare_unsupported_counterexample :
  (type (VBool true) ∉ SUPPORTED)
  ∧ directCompare (VBool true) (VInt 1) (f64_of_int 0) (f64_of_int 10) "values" w0
    = (Return false, add_log w0 [NDifferentTypes TBool TInt "values"]).
Proof.
  split; [|reflexivity].
  unfold SUPPORTED. simpl. intros Hin.
  repeat (apply elem_of_cons in Hin as [Hin|Hin]; [discriminate|]).
  inversion Hin.
Qed.

(** Claim C10.  bool is not among [COMPARE_NUMERICS], and comparing two
    bool values raises the unsupported-type [TypeError] for every pair of
    tolerances, without producing any verdict. *)
Theorem directCompare_bool (b0 b1 : bool) lower upper quantity w :
  type_in (type (VBool b0)) COMPARE_NUMERICS = false
  ∧ directCompare (VBool b0) (VBool b1) lower upper quantity w
    = (Raise (unsupported_type_error TBool), w).
Proof. split; reflexivity. Qed.

(** ** Key reconciliation *)

Lemma logMissingKeys_once desc0 desc1 in0 in1 h w :
  ∃ ns, logMissingKeys desc0 desc1 in0 in1 h w = (Return tt, add_log w ns)
        ∧ count_missing_keys ns = 1%nat
        ∧ ∃ h', NMissingKeys desc0 desc1 in0 in1 h' ∈ ns.
Proof.
  destruct h.
  5: { exists [NCritical (mkMsg "herald is not callable" []);
               NMissingKeys desc0 desc1 in0 in1 HError].
       split; [|split; [reflexivity | exists HError; right; left]].
       unfold logMissingKeys, bind, emit, add_log. simpl.
       rewrite <- app_assoc. reflexivity. }
  all: eexists [_]; split; [reflexivity | split; [reflexivity | eexists; left]].
Qed.

Lemma keyset_has_key (d : keysrc) (k : string) : k ∈ keyset d ↔ has_key d k.
Proof.
  destruct d as [m|ks]; simpl.
  - apply elem_of_dom.
  - apply elem_of_list_to_set.
Qed.

Lemma symmetric_difference_spec (s0 s1 : gset string) (k : string) :
  k ∈ symmetric_difference s0 s1 ↔ (k ∈ s0 ∧ k ∉ s1) ∨ (k ∈ s1 ∧ k ∉ s0).
Proof.
  unfold symmetric_difference.
  rewrite elem_of_union, !elem_of_difference. reflexivity.
Qed.

(** The keys found on one side only, in terms of the two collections. *)
Lemma one_sided_spec (d0 d1 : keysrc) :
  symmetric_difference (keyset d0) (keyset d1) ≠ ∅
  ↔ ∃ k, only_in d0 d1 k ∨ only_in d1 d0 k.
Proof.
  unfold only_in. split.
  - intros Hne. apply set_choose_L in Hne as [k Hk]. exists k.
    apply symmetric_difference_spec in Hk.
    rewrite !keyset_has_key in Hk. exact Hk.
  - intros [k Hk] E.
    assert (Hin : k ∈ symmetric_difference (keyset d0) (keyset d1)).
    { apply symmetric_difference_spec. rewrite !keyset_has_key. exact Hk. }
    rewrite E in Hin. apply not_elem_of_empty in Hin. exact Hin.
Qed.

Lemma getCommonKeys_run d0 d1 desc0 desc1 h w :
  getCommonKeys d0 d1 desc0 desc1 h w
  = if decide (symmetric_difference (keyset d0) (keyset d1) = ∅)
    then (Return (keyset d0 ∩ keyset d1), w)
    else (Return (keyset d0 ∩ keyset d1),
          snd (logMissingKeys desc0 desc1 (keyset d0 ∖ keyset d1)
                 (keyset d1 ∖ keyset d0) h w)).
Proof.
  unfold getCommonKeys, set_truthy, bind.
  destruct (decide (symmetric_difference (keyset d0) (keyset d1) = ∅)) as [E|E].
  - rewrite (bool_decide_eq_true_2 _ E). reflexivity.
  - rewrite (bool_decide_eq_false_2 _ E). simpl.
    destruct h; reflexivity.
Qed.

(** Claim C6.  For two mappings or two iterables of keys, in any
    combination, [getCommonKeys] never fails and returns exactly the keys
    that both collections have.  It emits exactly one missing-keys
    notification when some key is found in one collection only, and that
    notification lists, side by side, the keys of the first collection
    that the second lacks and the keys of the second that the first
    lacks; when the two collections have the same keys it emits nothing.
    For [first = {a: 1, b: 2}] and [second = {b: 3, c: 4}] the result is
    [{b}] with one notification referencing [a] and [c], and so it is for
    the key iterables [a, b, a] and [b, c]. *)
Theorem getCommonKeys_intersection :
  (∀ d0 d1 desc0 desc1 h w,
     ∃ common ns,
       getCommonKeys d0 d1 desc0 desc1 h w = (Return common, add_log w ns)
       ∧ (∀ k, k ∈ common ↔ has_key d0 k ∧ has_key d1 k)
       ∧ (count_missing_keys ns = 1%nat
          ↔ ∃ k, only_in d0 d1 k ∨ only_in d1 d0 k)
       ∧ ((∃ k, only_in d0 d1 k ∨ only_in d1 d0 k) →
          ∃ in0 in1 h',
            NMissingKeys desc0 desc1 in0 in1 h' ∈ ns
            ∧ (∀ k, k ∈ in0 ↔ only_in d0 d1 k)
            ∧ (∀ k, k ∈ in1 ↔ only_in d1 d0 k))
       ∧ ((¬ ∃ k, only_in d0 d1 k ∨ only_in d1 d0 k) → ns = []))
  ∧ getCommonKeys (Dict {["a" := VInt 1; "b" := VInt 2]})
      (Dict {["b" := VInt 3; "c" := VInt 4]}) "first" "second" HError w0
    = (Return {["b"]},
       add_log w0 [NMissingKeys "first" "second" {["a"]} {["c"]} HError])
  ∧ getCommonKeys (Iter ["a"; "b"; "a"]) (Iter ["b"; "c"])
      "first" "second" HError w0
    = (Return {["b"]},
       add_log w0 [NMissingKeys "first" "second" {["a"]} {["c"]} HError]).
Proof.
  split; [|split; vm_compute; reflexivity].
  intros d0 d1 desc0 desc1 h w. rewrite getCommonKeys_run.
  exists (keyset d0 ∩ keyset d1).
  assert (Hcommon : ∀ k, k ∈ keyset d0 ∩ keyset d1 ↔ has_key d0 k ∧ has_key d1 k).
  { intros k. rewrite elem_of_intersection, !keyset_has_key. reflexivity. }
  destruct (decide (symmetric_difference (keyset d0) (keyset d1) = ∅)) as [E|E].
  - assert (Hnone : ¬ ∃ k, only_in d0 d1 k ∨ only_in d1 d0 k).
    { intros Hex. apply one_sided_spec in Hex. contradiction. }
    exists []. rewrite add_log_nil.
    split; [reflexivity|]. split; [exact Hcommon|].
    split; [split; [discriminate | intros Hex; contradiction]|].
    split; [intros Hex; contradiction | reflexivity].
  - assert (Hsome : ∃ k, only_in d0 d1 k ∨ only_in d1 d0 k)
      by (apply one_sided_spec; exact E).
    destruct (logMissingKeys_once desc0 desc1 (keyset d0 ∖ keyset d1)
                (keyset d1 ∖ keyset d0) h w) as (ns & Hrun & Hc & h' & Hin).
    exists ns. rewrite Hrun. simpl.
    split; [reflexivity|]. split; [exact Hcommon|].
    split; [split; [intros _; exact Hsome | intros _; exact Hc]|].
    split.
    + intros _. exists (keyset d0 ∖ keyset d1), (keyset d1 ∖ keyset d0), h'.
      split; [exact Hin|].
      split; intros k; rewrite elem_of_difference, !keyset_has_key; reflexivity.
    + intros Hnone. contradiction.
Qed.

(** Claim C6 on two iterables of keys that share one key. *)
Lemma getCommonKeys_intersection_witness :
  let first := Iter ["a"; "b"; "a"] in
  let second := Iter ["b"; "c"] in
  only_in first second "a"
  ∧ ∃ common ns, getCommonKeys first second "first" "second" HError w0
                 = (Return common, add_log w0 ns)
      ∧ "b" ∈ common ∧ ("a" ∉ common) ∧ count_missing_keys ns = 1%nat.
Proof.
  intros first second.
  assert (Ha : only_in first second "a").
  { split; simpl.
    - apply list_elem_of_here.
    - intros Hin. apply list_elem_of_In in Hin. simpl in Hin.
      destruct Hin as [H|[H|[]]]; discriminate H. }
  split; [exact Ha|].
  destruct (proj1 getCommonKeys_intersection first second "first" "second"
              HError w0) as (common & ns & Hrun & Hcommon & Hcount & _).
  exists common, ns. split; [exact Hrun|]. split; [|split].
  - apply Hcommon. split; simpl; apply list_elem_of_In; simpl; tauto.
  - intros Hin. apply Hcommon in Hin as [_ Hin]. exact (proj2 Ha Hin).
  - apply Hcount. exists "a". left. exact Ha.
Defined.

(** ** Shape reconciliation *)

Section Recording.
Context (seen : list string) (key : string).

Lemma set_add_iff (P : string → Prop) (S : gset string) :
  (∀ k, k ∈ S ↔ k ∈ seen ∧ P k) → P key →
  ∀ k, k ∈ {[key]} ∪ S ↔ k ∈ seen ++ [key] ∧ P k.
Proof.
  intros HS HP k.
  rewrite elem_of_union, elem_of_singleton, elem_of_app,
    list_elem_of_singleton, HS.
  intuition (subst; solve [eauto | exfalso; eauto | congruence]).
Qed.

Lemma set_keep_iff (P : string → Prop) (S : gset string) :
  (∀ k, k ∈ S ↔ k ∈ seen ∧ P k) → ¬ P key →
  ∀ k, k ∈ S ↔ k ∈ seen ++ [key] ∧ P k.
Proof.
  intros HS HP k. rewrite elem_of_app, list_elem_of_singleton, HS.
  intuition (subst; solve [eauto | exfalso; eauto | congruence]).
Qed.

Lemma map_add_iff {V} (Q : string → V → Prop) (m : gmap string V) (p0 : V) :
  (∀ k p, m !! k = Some p ↔ k ∈ seen ∧ Q k p) →
  (∀ p, Q key p ↔ p = p0) →
  ∀ k p, <[key := p0]> m !! k = Some p ↔ k ∈ seen ++ [key] ∧ Q k p.
Proof.
  intros Hm HQ k p. rewrite elem_of_app, list_elem_of_singleton.
  destruct (decide (key = k)) as [<-|Hne].
  - rewrite lookup_insert_eq, HQ. intuition (subst; solve [eauto | exfalso; eauto | congruence]).
  - rewrite lookup_insert_ne by exact Hne. rewrite Hm. intuition (subst; solve [eauto | exfalso; eauto | congruence]).
Qed.

Lemma map_keep_iff {V} (Q : string → V → Prop) (m : gmap string V) :
  (∀ k p, m !! k = Some p ↔ k ∈ seen ∧ Q k p) →
  (∀ p, ¬ Q key p) →
  ∀ k p, m !! k = Some p ↔ k ∈ seen ++ [key] ∧ Q k p.
Proof.
  intros Hm HQ k p. rewrite elem_of_app, list_elem_of_singleton, Hm.
  intuition (subst; solve [eauto | exfalso; eauto | congruence]).
Qed.
End Recording.

Lemma shape_step_records map0 map1 seen acc key :
  records map0 map1 seen acc →
  records map0 map1 (seen ++ [key]) (shape_step map0 map1 acc key).
Proof.
  intros (Hg & Hm0 & Hm1 & Hbt & Hbs). unfold shape_step, not_in.
  destruct (map0 !! key) as [v0|] eqn:E0, (map1 !! key) as [v1|] eqn:E1; simpl.
  2-4: (split; [|split; [|split; [|split]]]; simpl;
    [ apply set_keep_iff; [exact Hg | intros (?&?&?&?&?); congruence]
    | first [ apply set_add_iff; [exact Hm0 | assumption]
            | apply set_keep_iff; [exact Hm0 | congruence] ]
    | first [ apply set_add_iff; [exact Hm1 | assumption]
            | apply set_keep_iff; [exact Hm1 | congruence] ]
    | apply map_keep_iff; [exact Hbt | intros p (?&?&?&?&?); congruence]
    | apply map_keep_iff; [exact Hbs | intros p (?&?&?&?&?); congruence] ]).
  destruct (decide (type v0 = type v1)) as [Et|Et].
  - rewrite (bool_decide_eq_true_2 _ Et). simpl.
    assert (Hnt : ∀ p, ¬ type_clash map0 map1 key p).
    { intros p (u0 & u1 & H0 & H1 & Hne & _). congruence. }
    assert (Hshape :
      (∃ a0 a1, v0 = VArr a0 ∧ v1 = VArr a1 ∧ shape a0 ≠ shape a1) ∨
      (accepted map0 map1 key ∧ ∀ p, ¬ shape_clash map0 map1 key p)).
    { destruct v0 as [| | |a0| | |], v1 as [| | |a1| | |]; try discriminate Et.
      4: { destruct (decide (shape a0 = shape a1)) as [Es|Es].
           - right. split.
             + exists (VArr a0), (VArr a1). repeat split; auto. congruence.
             + intros p (b0 & b1 & H0 & H1 & Hne & _). congruence.
           - left. eauto. }
      all: right; split;
        [ eexists _, _; split; [exact E0 | split; [exact E1 | split;
            [exact Et | intros arr0 arr1 Harr; discriminate Harr]]]
        | intros p (arr0 & arr1 & H0 & H1 & _); congruence ]. }
    destruct Hshape as [(a0 & a1 & -> & -> & Hs) | [Hacc Hns]].
    + rewrite (bool_decide_eq_false_2 _ Hs). simpl.
      split; [|split; [|split; [|split]]]; simpl.
      * apply set_keep_iff; [exact Hg|].
        intros (u0 & u1 & H0 & H1 & _ & Hsh).
        rewrite E0 in H0. rewrite E1 in H1. inversion H0; inversion H1; subst.
        apply Hs. eapply Hsh; reflexivity.
      * apply set_keep_iff; [exact Hm0 | congruence].
      * apply set_keep_iff; [exact Hm1 | congruence].
      * apply map_keep_iff; [exact Hbt | exact Hnt].
      * apply map_add_iff; [exact Hbs|].
        intros p. split.
        -- intros (b0 & b1 & H0 & H1 & _ & ->). congruence.
        -- intros ->. exists a0, a1. auto.
    + assert (Hrun : match v0, v1 with
        | VArr a0, VArr a1 =>
            if negb (bool_decide (shape a0 = shape a1)) then
              mkAcc (missing0 acc) (missing1 acc) (badTypes acc)
                    (<[key := (shape a0, shape a1)]> (badShapes acc))
                    (goodKeys acc)
            else
              mkAcc (missing0 acc) (missing1 acc) (badTypes acc)
                    (badShapes acc) ({[key]} ∪ goodKeys acc)
        | _, _ =>
            mkAcc (missing0 acc) (missing1 acc) (badTypes acc)
                  (badShapes acc) ({[key]} ∪ goodKeys acc)
        end = mkAcc (missing0 acc) (missing1 acc) (badTypes acc)
                    (badShapes acc) ({[key]} ∪ goodKeys acc)).
      { destruct v0 as [| | |a0| | |], v1 as [| | |a1| | |]; try reflexivity.
        destruct Hacc as (u0 & u1 & H0 & H1 & _ & Hsh).
        rewrite E0 in H0. rewrite E1 in H1. inversion H0; inversion H1; subst.
        rewrite (bool_decide_eq_true_2 _ (Hsh _ _ eq_refl eq_refl)).
        reflexivity. }
      rewrite Hrun.
      split; [|split; [|split; [|split]]]; simpl.
      * apply set_add_iff; [exact Hg | exact Hacc].
      * apply set_keep_iff; [exact Hm0 | congruence].
      * apply set_keep_iff; [exact Hm1 | congruence].
      * apply map_keep_iff; [exact Hbt | exact Hnt].
      * apply map_keep_iff; [exact Hbs | exact Hns].
  - rewrite (bool_decide_eq_false_2 _ Et). simpl.
    split; [|split; [|split; [|split]]]; simpl.
    + apply set_keep_iff; [exact Hg|].
      intros (u0 & u1 & H0 & H1 & Ht & _). congruence.
    + apply set_keep_iff; [exact Hm0 | congruence].
    + apply set_keep_iff; [exact Hm1 | congruence].
    + apply map_add_iff; [exact Hbt|].
      intros p. split.
      * intros (u0 & u1 & H0 & H1 & _ & ->). congruence.
      * intros ->. exists v0, v1. auto.
    + apply map_keep_iff; [exact Hbs|].
      intros p (b0 & b1 & H0 & H1 & _). apply Et.
      rewrite E0 in H0. rewrite E1 in H1. inversion H0; inversion H1; reflexivity.
Qed.

Lemma shape_loop_records map0 map1 keySet :
  records map0 map1 keySet (shape_loop keySet map0 map1).
Proof.
  unfold shape_loop. induction keySet as [|key seen IH] using rev_ind.
  - simpl. split; [|split; [|split; [|split]]]; intros k; try intros p;
      (split; [intros H | intros [H _]; inversion H]); simpl in H;
      first [ rewrite lookup_empty in H; discriminate H
            | apply not_elem_of_empty in H; contradiction ].
  - rewrite foldl_snoc. apply shape_step_records. exact IH.
Qed.

Lemma any_key_spec (s : gset string) :
  any_key s = true ↔ ∃ k, k ∈ s ∧ k ≠ EmptyString.
Proof.
  unfold any_key. rewrite existsb_exists. split.
  - intros (k & Hk & Ht). exists k. split.
    + apply elem_of_elements, list_elem_of_In. exact Hk.
    + intros ->. discriminate Ht.
  - intros (k & Hk & Hne). exists k. split.
    + apply list_elem_of_In, elem_of_elements. exact Hk.
    + destruct k; [congruence | reflexivity].
Qed.

Lemma map_nonempty_spec {V} (m : gmap string V) (d : Decision (m = ∅)) :
  negb (@bool_decide (m = ∅) d) = true ↔ ∃ k p, m !! k = Some p.
Proof.
  rewrite negb_true_iff, bool_decide_eq_false. split.
  - intros Hne. apply map_choose in Hne. exact Hne.
  - intros (k & p & Hk) ->. rewrite lookup_empty in Hk. discriminate Hk.
Qed.

Lemma getKeyMatchingShapes_run keySet map0 map1 desc0 desc1 w :
  let acc := shape_loop keySet map0 map1 in
  getKeyMatchingShapes keySet map0 map1 desc0 desc1 w
  = (Return (goodKeys acc),
     add_log w
       ((if any_key (missing0 acc) || any_key (missing1 acc)
         then [NMissingKeys desc0 desc1 (missing0 acc) (missing1 acc) HError]
         else [])
        ++ (if negb (bool_decide (badTypes acc = ∅))
            then [NBadTypes desc0 desc1 (badTypes acc)] else [])
        ++ (if negb (bool_decide (badShapes acc = ∅))
            then [NBadShapes desc0 desc1 (badShapes acc)] else []))).
Proof.
  intros acc. unfold getKeyMatchingShapes. fold acc.
  unfold logMissingKeys, logBadTypes, logBadShapes, bind.
  rewrite !report_when, !add_log_app. reflexivity.
Qed.

(** The three guards of the reports of [getKeyMatchingShapes], in terms of
    the key set and the two maps. *)
Lemma shape_report_guards keySet map0 map1 :
  let acc := shape_loop keySet map0 map1 in
  (any_key (missing0 acc) || any_key (missing1 acc) = true ↔
   ∃ k, k ∈ keySet ∧ k ≠ EmptyString ∧ (map0 !! k = None ∨ map1 !! k = None))
  ∧ (negb (bool_decide (badTypes acc = ∅)) = true ↔
     ∃ k v0 v1, k ∈ keySet ∧ map0 !! k = Some v0 ∧ map1 !! k = Some v1
                ∧ type v0 ≠ type v1)
  ∧ (negb (bool_decide (badShapes acc = ∅)) = true ↔
     ∃ k a0 a1, k ∈ keySet ∧ map0 !! k = Some (VArr a0)
                ∧ map1 !! k = Some (VArr a1) ∧ shape a0 ≠ shape a1).
Proof.
  intros acc.
  pose proof (shape_loop_records map0 map1 keySet) as (_ & Hm0 & Hm1 & Hbt & Hbs).
  fold acc in Hm0, Hm1, Hbt, Hbs.
  split; [|split].
  - rewrite orb_true_iff, !any_key_spec. split.
    + intros [(k & Hk & Hne) | (k & Hk & Hne)].
      * apply Hm0 in Hk as [Hk Hn]. eauto 10.
      * apply Hm1 in Hk as [Hk Hn]. eauto 10.
    + intros (k & Hk & Hne & [Hn|Hn]).
      * left. exists k. split; [apply Hm0; auto | exact Hne].
      * right. exists k. split; [apply Hm1; auto | exact Hne].
  - rewrite map_nonempty_spec. split.
    + intros (k & p & Hp). apply Hbt in Hp as (Hk & v0 & v1 & H0 & H1 & Hne & _).
      eauto 10.
    + intros (k & v0 & v1 & Hk & H0 & H1 & Hne).
      exists k, (type v0, type v1). apply Hbt. split; [exact Hk|].
      exists v0, v1. auto.
  - rewrite map_nonempty_spec. split.
    + intros (k & p & Hp). apply Hbs in Hp as (Hk & a0 & a1 & H0 & H1 & Hne & _).
      eauto 10.
    + intros (k & a0 & a1 & Hk & H0 & H1 & Hne).
      exists k, (shape a0, shape a1). apply Hbs. split; [exact Hk|].
      exists a0, a1. auto.
Qed.

(** Which of the three reports a run emits, given its three guards. *)
Lemma reports_emitted (c1 c2 c3 : bool) (n1 n2 n3 : notice) :
  is_missing_keys n1 = true →
  (∃ d0 d1 b, n2 = NBadTypes d0 d1 b) → (∃ d0 d1 b, n3 = NBadShapes d0 d1 b) →
  let ns := (if c1 then [n1] else []) ++ (if c2 then [n2] else [])
            ++ (if c3 then [n3] else []) in
  sublist ns [n1; n2; n3]
  ∧ (n1 ∈ ns ↔ c1 = true) ∧ (n2 ∈ ns ↔ c2 = true) ∧ (n3 ∈ ns ↔ c3 = true).
Proof.
  intros H1 (d0 & d1 & b & ->) (e0 & e1 & b' & ->) ns. subst ns.
  destruct n1; try discriminate H1.
  destruct c1, c2, c3; simpl;
    (split; [repeat constructor|]); (split; [|split]);
    (split; [intros H; first [reflexivity | exfalso;
        repeat (apply elem_of_cons in H as [H|H]; [discriminate H|]);
        inversion H]
      | intros H; first [discriminate H | apply list_elem_of_In; simpl; tauto]]).
Qed.

(** Claim C7.  [getKeyMatchingShapes] returns exactly the keys of the key
    set that are present in both maps, whose two values have one concrete
    type and, when both are arrays, one shape.  Every excluded key is
    recorded in one of four collections: the keys the first map lacks, the
    keys the second map lacks, the keys with values of two types (with
    both types), the keys with arrays of two shapes (with both shapes).
    After the whole key set is processed these collections are reported in
    at most three aggregated notifications, in this order and never key by
    key: the two missing sets together, exactly when some key other than
    the empty string is missing from a map; the type mismatches, exactly
    when there is one; the shape mismatches, exactly when there is one.
    For the keys [x] and [y], with [x] of shape (3,) in both maps and [y]
    of shapes (2,) and (5,), the result is [{x}] and [y] is reported as a
    shape mismatch. *)
Theorem getKeyMatchingShapes_spec :
  (∀ keySet map0 map1 desc0 desc1 w,
     ∃ good in0 in1 badT badS ns,
       getKeyMatchingShapes keySet map0 map1 desc0 desc1 w
       = (Return good, add_log w ns)
       ∧ (∀ k, k ∈ good ↔
             k ∈ keySet ∧
             ∃ v0 v1, map0 !! k = Some v0 ∧ map1 !! k = Some v1
                      ∧ type v0 = type v1
                      ∧ ∀ a0 a1, v0 = VArr a0 → v1 = VArr a1 → shape a0 = shape a1)
       ∧ (∀ k, k ∈ in0 ↔ k ∈ keySet ∧ map0 !! k = None)
       ∧ (∀ k, k ∈ in1 ↔ k ∈ keySet ∧ map1 !! k = None)
       ∧ (∀ k p, badT !! k = Some p ↔
             k ∈ keySet ∧
             ∃ v0 v1, map0 !! k = Some v0 ∧ map1 !! k = Some v1
                      ∧ type v0 ≠ type v1 ∧ p = (type v0, type v1))
       ∧ (∀ k p, badS !! k = Some p ↔
             k ∈ keySet ∧
             ∃ a0 a1, map0 !! k = Some (VArr a0) ∧ map1 !! k = Some (VArr a1)
                      ∧ shape a0 ≠ shape a1 ∧ p = (shape a0, shape a1))
       ∧ (∀ k, k ∈ keySet → k ∉ good →
             k ∈ in0 ∨ k ∈ in1 ∨ is_Some (badT !! k) ∨ is_Some (badS !! k))
       ∧ sublist ns [NMissingKeys desc0 desc1 in0 in1 HError;
                     NBadTypes desc0 desc1 badT;
                     NBadShapes desc0 desc1 badS]
       ∧ (NMissingKeys desc0 desc1 in0 in1 HError ∈ ns ↔
          ∃ k, k ∈ keySet ∧ k ≠ EmptyString
               ∧ (map0 !! k = None ∨ map1 !! k = None))
       ∧ (NBadTypes desc0 desc1 badT ∈ ns ↔
          ∃ k v0 v1, k ∈ keySet ∧ map0 !! k = Some v0 ∧ map1 !! k = Some v1
                     ∧ type v0 ≠ type v1)
       ∧ (NBadShapes desc0 desc1 badS ∈ ns ↔
          ∃ k a0 a1, k ∈ keySet ∧ map0 !! k = Some (VArr a0)
                     ∧ map1 !! k = Some (VArr a1) ∧ shape a0 ≠ shape a1))
  ∧ (let x := VArr (mkArr [3%nat] (f64s [1; 2; 3]%Z)) in
     let map0 : gmap string pyval :=
       {["x" := x; "y" := VArr (mkArr [2%nat] (f64s [1; 2]%Z))]} in
     let map1 : gmap string pyval :=
       {["x" := x; "y" := VArr (mkArr [5%nat] (f64s [1; 2; 3; 4; 5]%Z))]} in
     getKeyMatchingShapes ["x"; "y"] map0 map1 "first" "second" w0
     = (Return {["x"]},
        add_log w0 [NBadShapes "first" "second" {["y" := ([2%nat], [5%nat])]}])).
Proof.
  split; [|vm_compute; reflexivity].
  intros keySet map0 map1 desc0 desc1 w.
  set (acc := shape_loop keySet map0 map1).
  pose proof (shape_loop_records map0 map1 keySet) as (Hg & Hm0 & Hm1 & Hbt & Hbs).
  fold acc in Hg, Hm0, Hm1, Hbt, Hbs.
  pose proof (shape_report_guards keySet map0 map1) as (Gm & Gt & Gs).
  fold acc in Gm, Gt, Gs.
  exists (goodKeys acc), (missing0 acc), (missing1 acc), (badTypes acc),
    (badShapes acc).
  eexists. split; [apply getKeyMatchingShapes_run|]. fold acc.
  split; [exact Hg|]. split; [exact Hm0|]. split; [exact Hm1|].
  split; [exact Hbt|]. split; [exact Hbs|].
  split.
  { intros k Hk Hng.
    destruct (map0 !! k) as [v0|] eqn:E0.
    2: { left. apply Hm0. auto. }
    destruct (map1 !! k) as [v1|] eqn:E1.
    2: { right; left. apply Hm1. auto. }
    right; right.
    destruct (decide (type v0 = type v1)) as [Et|Et].
    2: { left. exists (type v0, type v1). apply Hbt. split; [exact Hk|].
         exists v0, v1. auto. }
    right.
    assert (Hcl : ∃ a0 a1, v0 = VArr a0 ∧ v1 = VArr a1 ∧ shape a0 ≠ shape a1).
    { destruct v0 as [| | |a0| | |], v1 as [| | |a1| | |]; try discriminate Et.
      4: { destruct (decide (shape a0 = shape a1)) as [Es|Es]; [|eauto].
           exfalso. apply Hng, Hg. split; [exact Hk|].
           exists (VArr a0), (VArr a1). repeat split; auto. congruence. }
      all: exfalso; apply Hng, Hg; split; [exact Hk|];
        eexists _, _; split; [exact E0 | split; [exact E1 | split;
          [exact Et | intros arr0 arr1 Harr; discriminate Harr]]]. }
    destruct Hcl as (a0 & a1 & -> & -> & Hs).
    exists (shape a0, shape a1). apply Hbs. split; [exact Hk|].
    exists a0, a1. auto. }
  rewrite <- Gm, <- Gt, <- Gs.
  apply reports_emitted; [reflexivity | eauto | eauto].
Qed.

(** Claim C7 on the two maps of the specification: [x] is accepted and [y]
    is reported with its two shapes. *)
Lemma getKeyMatchingShapes_spec_witness :
  let x := VArr (mkArr [3%nat] (f64s [1; 2; 3]%Z)) in
  let y0 := mkArr [2%nat] (f64s [1; 2]%Z) in
  let y1 := mkArr [5%nat] (f64s [1; 2; 3; 4; 5]%Z) in
  let map0 : gmap string pyval := {["x" := x; "y" := VArr y0]} in
  let map1 : gmap string pyval := {["x" := x; "y" := VArr y1]} in
  ∃ good badS ns,
    getKeyMatchingShapes ["x"; "y"] map0 map1 "first" "second" w0
    = (Return good, add_log w0 ns)
    ∧ "x" ∈ good ∧ ("y" ∉ good)
    ∧ NBadShapes "first" "second" badS ∈ ns
    ∧ badS !! "y" = Some ([2%nat], [5%nat]).
Proof.
  intros x y0 y1 map0 map1.
  destruct (proj1 getKeyMatchingShapes_spec ["x"; "y"] map0 map1
              "first" "second" w0)
    as (good & in0 & in1 & badT & badS & ns & Hrun & Hg & _ & _ & _ & Hbs
        & _ & _ & _ & _ & Hrep).
  assert (Hx : "x" ∈ ["x"; "y"]) by (apply list_elem_of_In; simpl; tauto).
  assert (Hy : "y" ∈ ["x"; "y"]) by (apply list_elem_of_In; simpl; tauto).
  exists good, badS, ns. split; [exact Hrun|]. split; [|split; [|split]].
  - apply Hg. split; [exact Hx|].
    exists x, x. split; [reflexivity|]. split; [reflexivity|].
    split; [reflexivity|].
    intros a0 a1 H0 H1. rewrite H0 in H1. inversion H1. reflexivity.
  - intros Hin. apply Hg in Hin as (_ & v0 & v1 & H0 & H1 & _ & Hs).
    vm_compute in H0, H1. inversion H0; inversion H1; subst.
    specialize (Hs _ _ eq_refl eq_refl). discriminate Hs.
  - apply Hrep. exists "y", y0, y1.
    split; [exact Hy|]. split; [reflexivity|]. split; [reflexivity|]. discriminate.
  - apply Hbs. split; [exact Hy|]. exists y0, y1.
    split; [reflexivity|]. split; [reflexivity|]. split; [discriminate | reflexivity].
Defined.

(** ** The class hierarchy *)

Lemma pyclass_nested_ind (P : pyclass → Prop) :
  (∀ cid name bases, Forall P bases → P (PyClass cid name bases)) → ∀ c, P c.
Proof.
  intros H. fix IH 1. intros [cid name bases]. apply H.
  induction bases as [|b bs IHbs]; constructor; [apply IH | exact IHbs].
Qed.

Lemma class_eqb_refl (c : pyclass) : class_eqb c c = true.
Proof.
  induction c as [cid name bases IH] using pyclass_nested_ind. simpl.
  rewrite Nat.eqb_refl, String.eqb_refl. simpl.
  induction IH as [|b bs Hb _ IHbs]; [reflexivity|].
  rewrite Hb. exact IHbs.
Qed.

Lemma class_eqb_eq (c d : pyclass) : class_eqb c d = true → c = d.
Proof.
  revert d. induction c as [cid name bases IH] using pyclass_nested_ind.
  intros [cid' name' bases']. simpl. intros H.
  apply andb_true_iff in H as [Hn Hb]. apply andb_true_iff in Hn as [Hi Hn].
  apply Nat.eqb_eq in Hi. apply String.eqb_eq in Hn. subst cid' name'.
  f_equal. revert bases' Hb.
  induction IH as [|b bs Hb' _ IHbs]; intros [|b' bs'] Hb; try discriminate Hb.
  - reflexivity.
  - apply andb_true_iff in Hb as [H1 H2].
    f_equal; [apply Hb'; exact H1 | apply IHbs; exact H2].
Qed.

(** Two classes are one class only if they have one identity. *)
Lemma class_eqb_id (c d : pyclass) : class_id c ≠ class_id d → class_eqb c d = false.
Proof.
  intros Hne. destruct (class_eqb c d) eqn:E; [|reflexivity].
  apply class_eqb_eq in E. subst d. congruence.
Qed.

Lemma issubclass_unfold (c d : pyclass) :
  issubclass c d
  = class_eqb c d || existsb (λ b, issubclass b d) (class_bases c).
Proof. destruct c; reflexivity. Qed.

Lemma issubclass_refl (c : pyclass) : issubclass c c = true.
Proof. rewrite issubclass_unfold, class_eqb_refl. reflexivity. Qed.

(** [issubclass] decides the relation "is the class or one of its
    ancestors". *)
Lemma issubclass_spec (c d : pyclass) : issubclass c d = true ↔ subclass_of c d.
Proof.
  split.
  - induction c as [cid name bases IH] using pyclass_nested_ind. intros H.
    rewrite issubclass_unfold in H. apply orb_true_iff in H as [H|H].
    + apply class_eqb_eq in H. subst d. constructor.
    + apply existsb_exists in H as (b & Hb & Hsub).
      apply list_elem_of_In in Hb. rewrite Forall_forall in IH.
      apply (subclass_step _ b); [exact Hb | apply IH; assumption].
  - intros H. induction H as [c | c b d Hb _ IH].
    + apply issubclass_refl.
    + rewrite issubclass_unfold. apply orb_true_iff. right.
      apply existsb_exists. exists b. split; [|exact IH].
      apply list_elem_of_In. exact Hb.
Qed.

Lemma class_size_base (c base : pyclass) :
  base ∈ class_bases c → (class_size base < class_size c)%nat.
Proof.
  destruct c as [cid name bases]. simpl. intros Hin. apply Nat.lt_succ_r.
  induction Hin as [b bs | b b' bs _ IH]; simpl; lia.
Qed.

(** An ancestor is smaller than the class, unless it is the class. *)
Lemma subclass_of_size (c d : pyclass) :
  subclass_of c d → c = d ∨ (class_size d < class_size c)%nat.
Proof.
  intros H. induction H as [c | c b d Hb _ IH]; [left; reflexivity|].
  right. pose proof (class_size_base c b Hb). destruct IH as [-> | IH]; lia.
Qed.

(** The subclass relation is one-directional: a proper ancestor of a class
    is no subclass of it. *)
Lemma not_subclass_of_derived (derived base : pyclass) :
  issubclass derived base = true → derived ≠ base →
  issubclass base derived = false.
Proof.
  intros Hsub Hne. destruct (issubclass base derived) eqn:E; [|reflexivity].
  apply issubclass_spec, subclass_of_size in Hsub.
  apply issubclass_spec, subclass_of_size in E.
  destruct Hsub as [-> | Hlt]; [congruence|].
  destruct E as [-> | Hlt']; [congruence | lia].
Qed.

(** ** [BaseObject.compare] *)

Lemma checkCompareObj_run (self other : pyobj) (w : world) :
  _checkCompareObj self other w
  = if issubclass (obj_class other) (obj_class self) then (Return tt, w)
    else (Raise (class_error (class_name (obj_class other))
                             (class_name (obj_class self))), w).
Proof.
  unfold _checkCompareObj, isinstance. rewrite orb_diag.
  destruct (issubclass (obj_class other) (obj_class self)); reflexivity.
Qed.

(** The run of [compare] once its three conversions have returned: the
    checks in their order, then the delegated run. *)
Lemma compare_converted cmp self other lower upper sigma verbosity w l u s :
  converted lower upper sigma l u s →
  compare cmp self other lower upper sigma verbosity w
  = if f64_lt u l then (Raise (order_error u l), w)
    else if f64_lt u f64_zero then (Raise (negative_error "upper" (PFloat u)), w)
    else if f64_lt l f64_zero then (Raise (negative_error "lower" (PFloat l)), w)
    else if issubclass (obj_class other) (obj_class self)
    then delegate cmp self other l u (Z.max 0 s) verbosity w
    else (Raise (class_error (class_name (obj_class other))
                             (class_name (obj_class self))), w).
Proof.
  intros (Hu & Hl & Hs). unfold compare, bind, lift. rewrite Hu, Hl, Hs.
  destruct (f64_lt u l); [reflexivity|]. simpl.
  destruct (f64_lt u f64_zero); [reflexivity|].
  destruct (f64_lt l f64_zero); [reflexivity|].
  assert (Hz : (Z.max 0 s <? 0)%Z = false) by (apply Z.ltb_ge; lia).
  rewrite Hz. unfold ret. rewrite checkCompareObj_run.
  destruct (issubclass (obj_class other) (obj_class self)); reflexivity.
Qed.

(** A conversion that raises ends the call, before any check. *)
Lemma compare_conversion_raises cmp self other lower upper sigma verbosity w :
  (∀ l u s, ¬ converted lower upper sigma l u s) →
  ∃ e, compare cmp self other lower upper sigma verbosity w = (Raise e, w).
Proof.
  intros Hn. unfold compare, bind, lift.
  destruct (float upper) as [u|e|] eqn:Hu; [|eexists; reflexivity|].
  2: { destruct upper as [z|x]; simpl in Hu; [|discriminate Hu].
       destruct (Z.abs z <? FLOAT_OVERFLOW)%Z; discriminate Hu. }
  destruct (float lower) as [l|e|] eqn:Hl; [|eexists; reflexivity|].
  2: { destruct lower as [z|x]; simpl in Hl; [|discriminate Hl].
       destruct (Z.abs z <? FLOAT_OVERFLOW)%Z; discriminate Hl. }
  destruct (int sigma) as [s|e|] eqn:Hs; [|eexists; reflexivity|].
  - exfalso. apply (Hn l u s). repeat split; assumption.
  - destruct sigma as [z|[| | |]]; discriminate Hs.
Qed.

Lemma compare_valid cmp self other lower upper sigma verbosity w l u s :
  converted lower upper sigma l u s → valid_tolerances l u →
  compare cmp self other lower upper sigma verbosity w
  = (_checkCompareObj self other ;;;
     delegate cmp self other l u (Z.max 0 s) verbosity) w.
Proof.
  intros Hc (H1 & H2 & H3).
  rewrite (compare_converted _ _ _ _ _ _ _ _ _ _ _ Hc), H1, H2, H3.
  unfold bind. rewrite checkCompareObj_run.
  destruct (issubclass (obj_class other) (obj_class self)); reflexivity.
Qed.

Lemma tolerances_cases (l u : double) :
  valid_tolerances l u ∨ invalid_tolerances l u.
Proof.
  unfold valid_tolerances, invalid_tolerances.
  destruct (f64_lt u l); [right; left; reflexivity|].
  destruct (f64_lt u f64_zero); [right; right; right; reflexivity|].
  destruct (f64_lt l f64_zero); [right; right; left; reflexivity|].
  left. repeat split.
Qed.

Lemma valid_not_invalid (l u : double) :
  valid_tolerances l u → ¬ invalid_tolerances l u.
Proof. intros (H1 & H2 & H3) [H|[H|H]]; congruence. Qed.

(** The outcome of the delegated run is the outcome of the comparison
    routine, started in the world the override and the preamble leave. *)
Lemma delegate_outcome cmp self other lower upper sigma verbosity w :
  ∃ w', fst (delegate cmp self other lower upper sigma verbosity w)
        = fst (cmp self other lower upper sigma w').
Proof.
  unfold delegate, bind, _compareLogPreMsg, info, emit, get_verbosity,
    set_verbosity, ret.
  destruct verbosity as [v|]; simpl;
    match goal with
    | |- context [cmp self other lower upper sigma ?x] =>
        exists x; destruct (cmp self other lower upper sigma x) as [[b|e|] w']
    end; reflexivity.
Qed.

(** The delegated run of a stable comparison routine. *)
Lemma delegate_stable cmp self other lower upper sigma verbosity :
  stable cmp →
  ∃ r ns, ∀ w,
    fst (delegate cmp self other lower upper sigma verbosity w) = r
    ∧ log (snd (delegate cmp self other lower upper sigma verbosity w))
      = log w ++ ns
    ∧ rc_verbosity (snd (delegate cmp self other lower upper sigma verbosity w))
      = match verbosity, r with
        | Some v, Raise _ | Some v, Unmodelled => v
        | _, _ => rc_verbosity w
        end.
Proof.
  intros Hst. destruct (Hst self other lower upper sigma) as (r & ns & Hcmp).
  exists r. eexists (_ :: ns). intros w.
  unfold delegate, bind, _compareLogPreMsg, info, emit, get_verbosity,
    set_verbosity, ret.
  destruct verbosity as [v|]; simpl; rewrite Hcmp;
    destruct r as [b|e|]; simpl; rewrite <- app_assoc; auto.
Qed.

(** Past the conversions and the validation of the tolerances, [compare]
    raises the error of the class check or hands over to the delegated
    run. *)
Lemma compare_checked cmp self other lower upper sigma verbosity w l u s :
  converted lower upper sigma l u s → valid_tolerances l u →
  compare cmp self other lower upper sigma verbosity w
  = if issubclass (obj_class other) (obj_class self)
    then delegate cmp self other l u (Z.max 0 s) verbosity w
    else (Raise (class_error (class_name (obj_class other))
                             (class_name (obj_class self))), w).
Proof.
  intros Hc (H1 & H2 & H3).
  rewrite (compare_converted _ _ _ _ _ _ _ _ _ _ _ Hc), H1, H2, H3.
  reflexivity.
Qed.

(** The default arguments of [compare] convert and are valid. *)
Lemma defaults_converted :
  converted DEF_COMP_LOWER DEF_COMP_UPPER DEF_COMP_SIGMA
    (f64_of_int 0) (f64_of_int 10) 2
  ∧ valid_tolerances (f64_of_int 0) (f64_of_int 10).
Proof. repeat split. Qed.

(** Claim C8, as amended.  The class check raises a [TypeError] naming
    both class names exactly when the class of [other] is neither the class
    of [self] nor one of its subclasses, and so does [compare] once its
    arguments are converted and its tolerances have passed the validation
    that comes first (for a comparison routine that raises no [TypeError]
    of its own); otherwise [compare] goes on to the comparison.  The check
    is one-directional: an instance of a class accepts an instance of any
    proper subclass, while the reverse direction raises. *)
Theorem checkCompareObj_spec :
  (∀ self other w,
     (subclass_of (obj_class other) (obj_class self) →
      _checkCompareObj self other w = (Return tt, w))
     ∧ (¬ subclass_of (obj_class other) (obj_class self) →
        ∃ m, _checkCompareObj self other w = (Raise (TypeError m), w)
             ∧ args m = [AStr (class_name (obj_class other));
                         AStr (class_name (obj_class self))]))
  ∧ (∀ cmp self other lower upper sigma verbosity w l u s,
       converted lower upper sigma l u s → valid_tolerances l u →
       (subclass_of (obj_class other) (obj_class self) →
        compare cmp self other lower upper sigma verbosity w
        = delegate cmp self other l u (Z.max 0 s) verbosity w)
       ∧ (¬ subclass_of (obj_class other) (obj_class self) →
          ∃ m, compare cmp self other lower upper sigma verbosity w
               = (Raise (TypeError m), w)
               ∧ args m = [AStr (class_name (obj_class other));
                           AStr (class_name (obj_class self))])
       ∧ (no_type_error cmp →
          ((∃ m, fst (compare cmp self other lower upper sigma verbosity w)
                 = Raise (TypeError m))
           ↔ ¬ subclass_of (obj_class other) (obj_class self))))
  ∧ (∀ self other w,
       subclass_of (obj_class other) (obj_class self) →
       obj_class other ≠ obj_class self →
       _checkCompareObj self other w = (Return tt, w)
       ∧ ∃ m, _checkCompareObj other self w = (Raise (TypeError m), w)
              ∧ args m = [AStr (class_name (obj_class self));
                          AStr (class_name (obj_class other))]).
Proof.
  assert (Hyes : ∀ self other,
    subclass_of (obj_class other) (obj_class self) →
    issubclass (obj_class other) (obj_class self) = true).
  { intros self other H. apply issubclass_spec. exact H. }
  assert (Hno : ∀ self other,
    ¬ subclass_of (obj_class other) (obj_class self) →
    issubclass (obj_class other) (obj_class self) = false).
  { intros self other H.
    destruct (issubclass (obj_class other) (obj_class self)) eqn:E; [|reflexivity].
    exfalso. apply H, issubclass_spec. exact E. }
  split; [|split].
  - intros self other w. rewrite checkCompareObj_run. split; intros H.
    + rewrite (Hyes _ _ H). reflexivity.
    + rewrite (Hno _ _ H). eexists. split; reflexivity.
  - intros cmp self other lower upper sigma verbosity w l u s Hc Hv.
    rewrite (compare_checked _ _ _ _ _ _ _ _ _ _ _ Hc Hv).
    split; [|split].
    + intros H. rewrite (Hyes _ _ H). reflexivity.
    + intros H. rewrite (Hno _ _ H). eexists. split; reflexivity.
    + intros Hcmp. split.
      * intros [m Hm] Hsub. rewrite (Hyes _ _ Hsub) in Hm.
        destruct (delegate_outcome cmp self other l u (Z.max 0 s) verbosity w)
          as [w' Hw'].
        rewrite Hw' in Hm. exact (Hcmp _ _ _ _ _ _ _ Hm).
      * intros H. rewrite (Hno _ _ H). eexists. reflexivity.
  - intros self other w Hsub Hne.
    rewrite !checkCompareObj_run, (Hyes _ _ Hsub).
    rewrite (not_subclass_of_derived _ _ (Hyes _ _ Hsub) Hne).
    split; [reflexivity|]. eexists. split; reflexivity.
Qed.

(** The amended claim C8 on [BaseObject] and [DetectorBase], which is
    two classes away, and on two classes that differ by their identity
    only. *)
Lemma checkCompareObj_spec_witness :
  let base := mkObj BaseObject "base" in
  let detector := mkObj DetectorBase "detector" in
  let twin := mkObj (PyClass 10 "Twin" [BaseObject]) "twin" in
  let other_twin := mkObj (PyClass 11 "Twin" [BaseObject]) "other twin" in
  subclass_of DetectorBase BaseObject
  ∧ _checkCompareObj base detector w0 = (Return tt, w0)
  ∧ (∃ m, _checkCompareObj detector base w0 = (Raise (TypeError m), w0)
          ∧ args m = [AStr "BaseObject"; AStr "DetectorBase"])
  ∧ (∃ m, _checkCompareObj twin other_twin w0 = (Raise (TypeError m), w0)
          ∧ args m = [AStr "Twin"; AStr "Twin"])
  ∧ (∃ m, compare BaseObject__compare detector base DEF_COMP_LOWER DEF_COMP_UPPER
            DEF_COMP_SIGMA None w0 = (Raise (TypeError m), w0)
          ∧ args m = [AStr "BaseObject"; AStr "DetectorBase"]).
Proof.
  intros base detector twin other_twin.
  assert (Hsub : subclass_of DetectorBase BaseObject).
  { apply issubclass_spec. reflexivity. }
  assert (Hnot : ∀ c d, issubclass c d = false → ¬ subclass_of c d).
  { intros c d E H. apply issubclass_spec in H. congruence. }
  destruct checkCompareObj_spec as (Hchk & Hcmp & Hdir).
  destruct (Hdir base detector w0 Hsub) as [H1 H2]; [discriminate|].
  split; [exact Hsub|]. split; [exact H1|]. split; [exact H2|]. split.
  - apply (proj2 (Hchk twin other_twin w0)). apply Hnot. reflexivity.
  - destruct defaults_converted as [Hc Hv].
    apply (proj1 (proj2 (Hcmp BaseObject__compare detector base DEF_COMP_LOWER
                           DEF_COMP_UPPER DEF_COMP_SIGMA None w0 _ _ _ Hc Hv))).
    apply Hnot. reflexivity.
Defined.

(** Claim C8 as stated fails where the tolerances are not valid: [other]
    is an instance of [BaseObject], which is neither [NamedObject] nor a
    subclass of it, and yet [compare(other, lower=10, upper=5)] raises the
    [ValueError] of the validation, which comes first, and no
    [TypeError]. *)
Lemma checkCompareObj_spec_counterexample :
  let self := mkObj NamedObject "self" in
  let other := mkObj BaseObject "other" in
  ¬ subclass_of (obj_class other) (obj_class self)
  ∧ (∃ m, compare BaseObject__compare self other (PInt 10) (PInt 5)
            DEF_COMP_SIGMA None w0 = (Raise (ValueError m), w0))
  ∧ ¬ ∃ m, fst (compare BaseObject__compare self other (PInt 10) (PInt 5)
                  DEF_COMP_SIGMA None w0) = Raise (TypeError m).
Proof.
  intros self other. split; [|split].
  - intros H. apply issubclass_spec in H. discriminate H.
  - eexists. reflexivity.
  - intros [m Hm]. discriminate Hm.
Qed.

(** Claim C4, as amended.  [compare] first converts [upper] and [lower]
    with [float] and [sigma] with [int].  Once they are converted, it
    raises a [ValueError] exactly when [upper < lower] or when [lower] or
    [upper] is negative, as floats (for a comparison routine that raises
    none of its own).  For [upper < lower] the message carries both
    numbers, [upper] then [lower]; otherwise it names the first negative
    one of [upper], [lower] and carries that one number.  A negative
    [sigma] never raises: [sigma] is coerced to an integer and clamped at
    0, so the call behaves as the call with the clamped value.  The
    validation precedes everything else: when it fails the process state
    is left as it was, whatever the comparison routine is. *)
Theorem compare_validation cmp self other lower upper sigma verbosity w l u s :
  converted lower upper sigma l u s →
  (f64_lt u l = true →
   ∃ m, compare cmp self other lower upper sigma verbosity w
        = (Raise (ValueError m), w)
        ∧ args m = [AFloat u; AFloat l])
  ∧ (f64_lt u l = false → f64_lt u f64_zero = true →
     ∃ m, compare cmp self other lower upper sigma verbosity w
          = (Raise (ValueError m), w)
          ∧ args m = [AStr "upper"; AFloat u])
  ∧ (f64_lt u l = false → f64_lt u f64_zero = false → f64_lt l f64_zero = true →
     ∃ m, compare cmp self other lower upper sigma verbosity w
          = (Raise (ValueError m), w)
          ∧ args m = [AStr "lower"; AFloat l])
  ∧ (valid_tolerances l u →
     compare cmp self other lower upper sigma verbosity w
     = (_checkCompareObj self other ;;;
        delegate cmp self other l u (Z.max 0 s) verbosity) w)
  ∧ compare cmp self other lower upper sigma verbosity w
    = compare cmp self other lower upper (PInt (Z.max 0 s)) verbosity w
  ∧ (no_value_error cmp →
     ((∃ m, fst (compare cmp self other lower upper sigma verbosity w)
            = Raise (ValueError m))
      ↔ invalid_tolerances l u)).
Proof.
  intros Hc.
  assert (Hc' : converted lower upper (PInt (Z.max 0 s)) l u (Z.max 0 s)).
  { destruct Hc as (Hu & Hl & _). repeat split; assumption. }
  split; [|split; [|split; [|split; [|split]]]].
  - intros H. rewrite (compare_converted _ _ _ _ _ _ _ _ _ _ _ Hc), H.
    eexists. split; reflexivity.
  - intros H1 H2.
    rewrite (compare_converted _ _ _ _ _ _ _ _ _ _ _ Hc), H1, H2.
    eexists. split; reflexivity.
  - intros H1 H2 H3.
    rewrite (compare_converted _ _ _ _ _ _ _ _ _ _ _ Hc), H1, H2, H3.
    eexists. split; reflexivity.
  - apply compare_valid. exact Hc.
  - rewrite (compare_converted _ _ _ _ _ _ _ _ _ _ _ Hc),
      (compare_converted _ _ _ _ _ _ _ _ _ _ _ Hc').
    assert (E : Z.max 0 (Z.max 0 s) = Z.max 0 s) by lia.
    rewrite E. reflexivity.
  - intros Hcmp. rewrite (compare_converted _ _ _ _ _ _ _ _ _ _ _ Hc).
    unfold invalid_tolerances. split.
    + intros [m Hm].
      destruct (f64_lt u l); [left; reflexivity|].
      destruct (f64_lt u f64_zero); [right; right; reflexivity|].
      destruct (f64_lt l f64_zero); [right; left; reflexivity|].
      exfalso. destruct (issubclass (obj_class other) (obj_class self)).
      * destruct (delegate_outcome cmp self other l u (Z.max 0 s) verbosity w)
          as [w' Hw'].
        rewrite Hw' in Hm. exact (Hcmp _ _ _ _ _ _ _ Hm).
      * discriminate Hm.
    + intros Hi.
      destruct (f64_lt u l); [eexists; reflexivity|].
      destruct (f64_lt u f64_zero); [eexists; reflexivity|].
      destruct (f64_lt l f64_zero); [eexists; reflexivity|].
      destruct Hi as [H|[H|H]]; discriminate H.
Qed.

Lemma no_value_error_base : no_value_error BaseObject__compare.
Proof. intros self other lower upper sigma w m. discriminate. Qed.

(** The amended claim C4 on [lower=10, upper=5] and on [sigma=-1]. *)
Lemma compare_validation_witness :
  let self := mkObj BaseObject "self" in
  let other := mkObj BaseObject "other" in
  converted (PInt 10) (PInt 5) DEF_COMP_SIGMA (f64_of_int 10) (f64_of_int 5) 2
  ∧ converted (PInt 0) (PInt 10) (PInt (-1)) (f64_of_int 0) (f64_of_int 10) (-1)
  ∧ (∃ m, compare BaseObject__compare self other (PInt 10) (PInt 5)
            DEF_COMP_SIGMA None w0 = (Raise (ValueError m), w0)
          ∧ args m = [AFloat (f64_of_int 5); AFloat (f64_of_int 10)])
  ∧ compare BaseObject__compare self other (PInt 0) (PInt 10) (PInt (-1)) None w0
    = compare BaseObject__compare self other (PInt 0) (PInt 10) (PInt 0) None w0
  ∧ ¬ ∃ m, fst (compare BaseObject__compare self other (PInt 0) (PInt 10)
                  (PInt (-1)) None w0) = Raise (ValueError m).
Proof.
  intros self other.
  assert (H1 : converted (PInt 10) (PInt 5) DEF_COMP_SIGMA
                 (f64_of_int 10) (f64_of_int 5) 2) by (repeat split).
  assert (H2 : converted (PInt 0) (PInt 10) (PInt (-1))
                 (f64_of_int 0) (f64_of_int 10) (-1)) by (repeat split).
  split; [exact H1|]. split; [exact H2|]. split; [|split].
  - apply (proj1 (compare_validation BaseObject__compare self other
                    (PInt 10) (PInt 5) DEF_COMP_SIGMA None w0 _ _ _ H1)).
    vm_compute. reflexivity.
  - exact (proj1 (proj2 (proj2 (proj2 (proj2
             (compare_validation BaseObject__compare self other
                (PInt 0) (PInt 10) (PInt (-1)) None w0 _ _ _ H2)))))).
  - intros Hex.
    apply (proj2 (proj2 (proj2 (proj2 (proj2
             (compare_validation BaseObject__compare self other
                (PInt 0) (PInt 10) (PInt (-1)) None w0 _ _ _ H2)))))
             no_value_error_base) in Hex.
    destruct Hex as [Hi|[Hi|Hi]]; vm_compute in Hi; discriminate Hi.
Defined.

(** Claim C4 as stated fails on [lower=-5, upper=-1]: both numbers are
    negative, and the message names [upper] and carries -1 only; the other
    offending number, -5, is not in it. *)
Lemma compare_validation_counterexample :
  let self := mkObj BaseObject "self" in
  let other := mkObj BaseObject "other" in
  converted (PInt (-5)) (PInt (-1)) DEF_COMP_SIGMA (f64_of_int (-5)) (f64_of_int (-1)) 2
  ∧ f64_lt (f64_of_int (-5)) f64_zero = true
  ∧ f64_lt (f64_of_int (-1)) f64_zero = true
  ∧ ∃ m, compare BaseObject__compare self other (PInt (-5)) (PInt (-1))
           DEF_COMP_SIGMA None w0 = (Raise (ValueError m), w0)
       ∧ args m = [AStr "upper"; AFloat (f64_of_int (-1))]
       ∧ ∀ x, AFloat x ∈ args m → x ≠ f64_of_int (-5).
Proof.
  intros self other. split; [repeat split|].
  split; [reflexivity|]. split; [reflexivity|].
  eexists. split; [reflexivity|]. split; [reflexivity|].
  intros x Hx. simpl in Hx.
  apply elem_of_cons in Hx as [Hx|Hx]; [discriminate Hx|].
  apply list_elem_of_singleton in Hx. inversion Hx; subst x.
  vm_compute. discriminate.
Qed.

(** The comparisons of the validation are those of the floats.  The ints
    [2^53 + 1] and [2^53] are one and the same float, so
    [compare(lower=2**53+1, upper=2**53)] passes the validation and reaches
    the comparison routine; an int beyond the doubles ends the call with
    [OverflowError], and a [sigma] that is NaN with the [ValueError] of
    [int]. *)
Lemma compare_conversions :
  let self := mkObj BaseObject "self" in
  let other := mkObj BaseObject "other" in
  float (PInt (2 ^ 53 + 1)) = float (PInt (2 ^ 53))
  ∧ compare BaseObject__compare self other (PInt (2 ^ 53 + 1)) (PInt (2 ^ 53))
      DEF_COMP_SIGMA None w0
    = (Raise NotImplementedError,
       snd (_compareLogPreMsg self other (f64_of_int (2 ^ 53))
              (f64_of_int (2 ^ 53)) 2 w0))
  ∧ compare BaseObject__compare self other (PInt 0) (PInt (10 ^ 400))
      DEF_COMP_SIGMA None w0
    = (Raise (OtherError "OverflowError"), w0)
  ∧ ∃ m, compare BaseObject__compare self other (PInt 0) (PInt 10)
           (PFloat S754_nan) None w0 = (Raise (ValueError m), w0).
Proof.
  intros self other. split; [vm_compute; reflexivity|].
  split; [vm_compute; reflexivity|]. split; [vm_compute; reflexivity|].
  eexists. vm_compute. reflexivity.
Qed.

(** Claim C3 fails on the code.  [BaseObject().compare(BaseObject(),
    verbosity='debug')] raises [NotImplementedError] out of [_compare] and
    leaves the process-wide verbosity at ['debug']: the restoration of line
    94 is never reached. *)
Theorem compare_verbosity_not_restored :
  let self := mkObj BaseObject "self" in
  let other := mkObj BaseObject "other" in
  let run := compare BaseObject__compare self other DEF_COMP_LOWER
               DEF_COMP_UPPER DEF_COMP_SIGMA (Some "debug") w0 in
  rc_verbosity w0 = "warning"
  ∧ fst run = Raise NotImplementedError
  ∧ rc_verbosity (snd run) = "debug".
Proof. repeat split. Qed.

(** Where [compare] leaves the verbosity: untouched without an override,
    restored after a comparison that returns, and left overridden after a
    comparison that raises. *)
Lemma compare_verbosity_scope cmp self other lower upper sigma verbosity w l u s :
  stable cmp → converted lower upper sigma l u s → valid_tolerances l u →
  issubclass (obj_class other) (obj_class self) = true →
  rc_verbosity (snd (compare cmp self other lower upper sigma verbosity w))
  = match verbosity, fst (compare cmp self other lower upper sigma verbosity w) with
    | Some v, Raise _ | Some v, Unmodelled => v
    | _, _ => rc_verbosity w
    end.
Proof.
  intros Hst Hc Hv Hsub.
  destruct (delegate_stable cmp self other l u (Z.max 0 s) verbosity Hst)
    as (r & ns & H).
  destruct (H w) as (Hr & _ & Hrc).
  destruct verbosity as [v|];
    rewrite !(compare_checked cmp self other lower upper
                sigma _ w l u s Hc Hv), Hsub, Hrc, ?Hr; reflexivity.
Qed.

(** ** Two runs *)

Lemma directCompare_stable obj0 obj1 lower upper quantity :
  ∃ r ns, ∀ w, directCompare obj0 obj1 lower upper quantity w = (r, add_log w ns).
Proof.
  destruct ((negb (type_in (type obj0) COMPARE_NUMERICS)
             || negb (type_in (type obj1) COMPARE_NUMERICS))
            && negb (bool_decide (type obj0 = type obj1))) eqn:Hg.
  { eexists _, [_]. intros w. rewrite directCompare_unfold, Hg. reflexivity. }
  destruct (bool_decide (type obj0 = TStr)) eqn:Hs.
  { destruct (str_ne obj0 obj1) eqn:Hn; eexists _, [_]; intros w;
      rewrite directCompare_unfold, Hg, Hs, Hn; reflexivity. }
  destruct (type_in (type obj0) [TFloat; TInt; TNdarray]) eqn:Ht.
  2: { eexists _, []. intros w.
       rewrite directCompare_unfold, Hg, Hs, Ht, add_log_nil. reflexivity. }
  destruct (metric obj0 obj1) as [m|e|] eqn:Hm.
  - eexists _, [_]. intros w.
    rewrite directCompare_unfold, Hg, Hs, Ht, Hm. reflexivity.
  - eexists _, []. intros w.
    rewrite directCompare_unfold, Hg, Hs, Ht, Hm, add_log_nil. reflexivity.
  - eexists _, []. intros w.
    rewrite directCompare_unfold, Hg, Hs, Ht, Hm, add_log_nil. reflexivity.
Qed.

Lemma compare_stable cmp self other lower upper sigma verbosity :
  stable cmp →
  ∃ r ns, ∀ w,
    fst (compare cmp self other lower upper sigma verbosity w) = r
    ∧ log (snd (compare cmp self other lower upper sigma verbosity w))
      = log w ++ ns.
Proof.
  intros Hst.
  assert (Hraise : ∀ e : exn, ∃ (r : outcome bool) (ns : list notice), ∀ w : world,
            fst (@Raise bool e, w) = r ∧ log (snd (@Raise bool e, w)) = log w ++ ns).
  { intros e. eexists _, []. intros w. simpl. rewrite app_nil_r. auto. }
  unfold compare, bind, lift.
  destruct (float upper) as [u|e|] eqn:Hu; [|apply Hraise|].
  2: { destruct upper as [z|x]; simpl in Hu; [|discriminate Hu].
       destruct (Z.abs z <? FLOAT_OVERFLOW)%Z; discriminate Hu. }
  destruct (float lower) as [l|e|] eqn:Hl; [|apply Hraise|].
  2: { destruct lower as [z|x]; simpl in Hl; [|discriminate Hl].
       destruct (Z.abs z <? FLOAT_OVERFLOW)%Z; discriminate Hl. }
  destruct (int sigma) as [s|e|] eqn:Hs; [|apply Hraise|].
  2: { destruct sigma as [z|[| | |]]; discriminate Hs. }
  destruct (f64_lt u l); [apply Hraise|]. simpl.
  destruct (f64_lt u f64_zero); [apply Hraise|].
  destruct (f64_lt l f64_zero); [apply Hraise|].
  assert (Hz : (Z.max 0 s <? 0)%Z = false) by (apply Z.ltb_ge; lia).
  rewrite Hz. unfold ret.
  destruct (issubclass (obj_class other) (obj_class self)) eqn:Hsub.
  - destruct (delegate_stable cmp self other l u (Z.max 0 s) verbosity Hst)
      as (r & ns & H).
    exists r, ns. intros w. rewrite checkCompareObj_run, Hsub.
    destruct (H w) as (Hr & Hl' & _). auto.
  - eexists _, []. intros w. rewrite checkCompareObj_run, Hsub.
    simpl. rewrite app_nil_r. auto.
Qed.

(** Claim C9.  Two runs in a row on identical inputs, with nothing in
    between, yield the same outcome and emit the same notifications, the
    verdicts among them: for [directCompare], and for [compare] with a
    comparison routine that is itself a function of its arguments. *)
Theorem comparison_deterministic :
  (∀ obj0 obj1 lower upper quantity w,
     let run1 := directCompare obj0 obj1 lower upper quantity w in
     let run2 := directCompare obj0 obj1 lower upper quantity (snd run1) in
     fst run1 = fst run2
     ∧ ∃ ns, log (snd run1) = log w ++ ns
             ∧ log (snd run2) = log (snd run1) ++ ns)
  ∧ (∀ cmp self other lower upper sigma verbosity w,
       stable cmp →
       let run1 := compare cmp self other lower upper sigma verbosity w in
       let run2 := compare cmp self other lower upper sigma verbosity (snd run1) in
       fst run1 = fst run2
       ∧ ∃ ns, log (snd run1) = log w ++ ns
               ∧ log (snd run2) = log (snd run1) ++ ns).
Proof.
  split.
  - intros obj0 obj1 lower upper quantity w run1 run2. subst run1 run2.
    destruct (directCompare_stable obj0 obj1 lower upper quantity) as (r & ns & H).
    rewrite !H. simpl. split; [reflexivity|]. exists ns. auto.
  - intros cmp self other lower upper sigma verbosity w Hst run1 run2.
    subst run1 run2.
    destruct (compare_stable cmp self other lower upper sigma verbosity Hst)
      as (r & ns & H).
    destruct (H w) as [Hr1 Hl1].
    destruct (H (snd (compare cmp self other lower upper sigma verbosity w)))
      as [Hr2 Hl2].
    split; [congruence|]. exists ns. auto.
Qed.

Lemma stable_sample : stable Sample__compare.
Proof.
  intros self other lower upper sigma. unfold Sample__compare.
  apply directCompare_stable.
Qed.

(** Claim C9 on a sample comparable class, run twice with an override of
    the verbosity. *)
Lemma comparison_deterministic_witness :
  let self := mkObj (PyClass 4 "Sample" [BaseObject]) "self" in
  let other := mkObj (PyClass 4 "Sample" [BaseObject]) "other" in
  let run1 := compare Sample__compare self other DEF_COMP_LOWER DEF_COMP_UPPER
                DEF_COMP_SIGMA (Some "debug") w0 in
  let run2 := compare Sample__compare self other DEF_COMP_LOWER DEF_COMP_UPPER
                DEF_COMP_SIGMA (Some "debug") (snd run1) in
  stable Sample__compare
  ∧ fst run1 = Return false
  ∧ fst run1 = fst run2
  ∧ ∃ ns, log (snd run1) = log w0 ++ ns ∧ log (snd run2) = log (snd run1) ++ ns.
Proof.
  intros self other run1 run2.
  split; [exact stable_sample|]. split; [vm_compute; reflexivity|].
  exact (proj2 comparison_deterministic Sample__compare self other
           DEF_COMP_LOWER DEF_COMP_UPPER DEF_COMP_SIGMA (Some "debug") w0
           stable_sample).
Defined.

(** * Further properties of the comparison utilities *)

(** ** [directCompare]: one verdict per call *)

(** How a call of [directCompare] can end, whatever the operands are. *)
Theorem directCompare_one_notice obj0 obj1 lower upper quantity w :
  (∃ v, directCompare obj0 obj1 lower upper quantity w
        = concludes v obj0 obj1 quantity w)
  ∨ directCompare obj0 obj1 lower upper quantity w
    = (Return false, add_log w [NNotIdentical obj0 obj1 quantity])
  ∨ (∃ e, directCompare obj0 obj1 lower upper quantity w = (Raise e, w))
  ∨ directCompare obj0 obj1 lower upper quantity w = (Unmodelled, w).
Proof.
  rewrite directCompare_unfold.
  destruct ((negb (type_in (type obj0) COMPARE_NUMERICS)
             || negb (type_in (type obj1) COMPARE_NUMERICS))
            && negb (bool_decide (type obj0 = type obj1))).
  { left. exists DifferentTypes. reflexivity. }
  destruct (bool_decide (type obj0 = TStr)).
  { destruct (str_ne obj0 obj1); [right; left; reflexivity|].
    left. exists Identical. reflexivity. }
  destruct (type_in (type obj0) [TFloat; TInt; TNdarray]).
  2: { right; right; left. eexists. reflexivity. }
  destruct (metric obj0 obj1) as [m|e|].
  - left. eexists. reflexivity.
  - right; right; left. eexists. reflexivity.
  - right; right; right. reflexivity.
Qed.

(** ** [directCompare]: strings *)


(** ** [directCompare]: the tolerances only matter through the ladder *)

(** Either the tolerances play no part in the run, or the run is the
    ladder on a metric that does not depend on them. *)
Lemma directCompare_tolerances obj0 obj1 quantity :
  (∃ r ns, ∀ lower upper w,
     directCompare obj0 obj1 lower upper quantity w = (r, add_log w ns))
  ∨ (∃ m, ∀ lower upper w,
       directCompare obj0 obj1 lower upper quantity w
       = concludes (ladder m lower upper) obj0 obj1 quantity w).
Proof.
  destruct ((negb (type_in (type obj0) COMPARE_NUMERICS)
             || negb (type_in (type obj1) COMPARE_NUMERICS))
            && negb (bool_decide (type obj0 = type obj1))) eqn:Hg.
  { left. eexists _, [_]. intros.
    rewrite directCompare_unfold, Hg. reflexivity. }
  destruct (bool_decide (type obj0 = TStr)) eqn:Hs.
  { left. destruct (str_ne obj0 obj1) eqn:Hn; eexists _, [_]; intros;
      rewrite directCompare_unfold, Hg, Hs, Hn; reflexivity. }
  destruct (type_in (type obj0) [TFloat; TInt; TNdarray]) eqn:Ht.
  2: { left. eexists _, []. intros.
       rewrite directCompare_unfold, Hg, Hs, Ht, add_log_nil. reflexivity. }
  destruct (metric obj0 obj1) as [m|e|] eqn:Hm.
  - right. exists m. intros.
    rewrite directCompare_unfold, Hg, Hs, Ht, Hm. reflexivity.
  - left. eexists _, []. intros.
    rewrite directCompare_unfold, Hg, Hs, Ht, Hm, add_log_nil. reflexivity.
  - left. eexists _, []. intros.
    rewrite directCompare_unfold, Hg, Hs, Ht, Hm, add_log_nil. reflexivity.
Qed.

Lemma ladder_widen (m lower upper lower' upper' : double) :
  f64_le lower lower' = true → f64_le upper upper' = true →
  succeeds (ladder m lower upper) = true →
  succeeds (ladder m lower' upper') = true.
Proof.
  intros Hl Hu. unfold ladder.
  destruct (f64_lt m EPSILON); [auto|].
  destruct (f64_le m lower) eqn:E1.
  - assert (E : f64_le m lower' = true) by (eapply f64_le_trans; eauto).
    rewrite E. auto.
  - destruct (f64_le upper m) eqn:E2; [discriminate|]. intros _.
    destruct (f64_le m lower'); [reflexivity|].
    assert (E : f64_le upper' m = false).
    { destruct (f64_le upper' m) eqn:E; [|reflexivity].
      assert (Hc : f64_le upper m = true) by (eapply f64_le_trans; eauto).
      congruence. }
    rewrite E. reflexivity.
Qed.

(** Widening the tolerances never turns a comparison that passes into one
    that fails. *)
Theorem directCompare_widen obj0 obj1 lower upper lower' upper' quantity w w' :
  f64_le lower lower' = true → f64_le upper upper' = true →
  fst (directCompare obj0 obj1 lower upper quantity w) = Return true →
  fst (directCompare obj0 obj1 lower' upper' quantity w') = Return true.
Proof.
  intros Hl Hu.
  destruct (directCompare_tolerances obj0 obj1 quantity)
    as [(r & ns & H) | (m & H)]; rewrite !H; simpl.
  - auto.
  - intros E. inversion E as [E']. rewrite E'.
    rewrite (ladder_widen m lower upper lower' upper' Hl Hu E'). reflexivity.
Qed.

Lemma directCompare_widen_witness :
  f64_le (f64_of_int 0) (f64_of_int 5) = true
  ∧ f64_le (f64_of_int 10) (f64_of_int 100) = true
  ∧ fst (directCompare (VFloat (f64_of_int 1)) (VFloat (f64_ratio 17 16))
           (f64_of_int 5) (f64_of_int 100) "values" w0) = Return true.
Proof.
  assert (Hl : f64_le (f64_of_int 0) (f64_of_int 5) = true) by reflexivity.
  assert (Hu : f64_le (f64_of_int 10) (f64_of_int 100) = true) by reflexivity.
  split; [exact Hl|]. split; [exact Hu|].
  apply (directCompare_widen (VFloat (f64_of_int 1)) (VFloat (f64_ratio 17 16))
           (f64_of_int 0) (f64_of_int 10) (f64_of_int 5) (f64_of_int 100)
           "values" w0 w0 Hl Hu).
  vm_compute. reflexivity.
Defined.

(** ** [directCompare]: a value against itself *)








(** ** [getCommonKeys]: the two sides *)

Lemma symmetric_difference_comm (s0 s1 : gset string) :
  symmetric_difference s0 s1 = symmetric_difference s1 s0.
Proof. unfold symmetric_difference. apply union_comm_L. Qed.

(** Swapping the two collections keeps the returned set and mirrors the
    report: the same notifications with the two sides exchanged. *)
Theorem getCommonKeys_swap d0 d1 desc0 desc1 h w :
  ∃ ns, getCommonKeys d0 d1 desc0 desc1 h w
        = (Return (keyset d0 ∩ keyset d1), add_log w ns)
      ∧ getCommonKeys d1 d0 desc1 desc0 h w
        = (Return (keyset d0 ∩ keyset d1), add_log w (map mirror ns)).
Proof.
  rewrite !getCommonKeys_run.
  rewrite (symmetric_difference_comm (keyset d1) (keyset d0)).
  assert (Ec : keyset d1 ∩ keyset d0 = keyset d0 ∩ keyset d1).
  { apply set_eq. intros x. rewrite !elem_of_intersection. tauto. }
  rewrite Ec.
  destruct (decide (symmetric_difference (keyset d0) (keyset d1) = ∅)) as [E|E].
  - exists []. simpl. rewrite add_log_nil. split; reflexivity.
  - destruct h;
      [eexists [_] | eexists [_] | eexists [_] | eexists [_] | eexists [_; _]];
      split; unfold logMissingKeys, bind, emit, add_log; simpl;
      rewrite <- ?app_assoc; reflexivity.
Qed.

(** A collection reconciled with itself gives all its keys and no report. *)
Theorem getCommonKeys_self d desc0 desc1 h w :
  getCommonKeys d d desc0 desc1 h w = (Return (keyset d), w).
Proof.
  rewrite getCommonKeys_run.
  assert (E : symmetric_difference (keyset d) (keyset d) = ∅).
  { unfold symmetric_difference. apply set_eq. intros x.
    rewrite elem_of_union, !elem_of_difference, elem_of_empty. tauto. }
  rewrite decide_True by exact E. f_equal. f_equal.
  apply set_eq. intros x. rewrite elem_of_intersection. tauto.
Qed.

(** ** [getKeyMatchingShapes]: which reports are emitted *)

(** The missing-keys report is emitted exactly when some non-empty key of
    the key set is absent from one of the maps; the type report exactly
    when some key holds values of two different types; the shape report
    exactly when some key holds two arrays of different shapes. *)
Theorem getKeyMatchingShapes_reports keySet map0 map1 desc0 desc1 w :
  let acc := shape_loop keySet map0 map1 in
  ∃ ns, getKeyMatchingShapes keySet map0 map1 desc0 desc1 w
        = (Return (goodKeys acc), add_log w ns)
    ∧ (NMissingKeys desc0 desc1 (missing0 acc) (missing1 acc) HError ∈ ns ↔
       ∃ k, k ∈ keySet ∧ k ≠ EmptyString
            ∧ (map0 !! k = None ∨ map1 !! k = None))
    ∧ (NBadTypes desc0 desc1 (badTypes acc) ∈ ns ↔
       ∃ k v0 v1, k ∈ keySet ∧ map0 !! k = Some v0 ∧ map1 !! k = Some v1
                  ∧ type v0 ≠ type v1)
    ∧ (NBadShapes desc0 desc1 (badShapes acc) ∈ ns ↔
       ∃ k a0 a1, k ∈ keySet ∧ map0 !! k = Some (VArr a0)
                  ∧ map1 !! k = Some (VArr a1) ∧ shape a0 ≠ shape a1).
Proof.
  intros acc. eexists. split; [apply getKeyMatchingShapes_run|]. fold acc.
  pose proof (shape_report_guards keySet map0 map1) as (Gm & Gt & Gs).
  fold acc in Gm, Gt, Gs. rewrite <- Gm, <- Gt, <- Gs.
  apply reports_emitted; [reflexivity | eauto | eauto].
Qed.

(** ** [getKeyMatchingShapes]: the order of the keys *)

Lemma records_unique map0 map1 seen seen' acc acc' :
  (∀ k : string, k ∈ seen ↔ k ∈ seen') →
  records map0 map1 seen acc → records map0 map1 seen' acc' → acc = acc'.
Proof.
  intros Hs (Hg & Hm0 & Hm1 & Hbt & Hbs) (Hg' & Hm0' & Hm1' & Hbt' & Hbs').
  destruct acc as [m0 m1 bt bs g], acc' as [m0' m1' bt' bs' g']. simpl in *.
  f_equal.
  - apply set_eq. intros k. rewrite Hm0, Hm0', Hs. reflexivity.
  - apply set_eq. intros k. rewrite Hm1, Hm1', Hs. reflexivity.
  - apply map_eq. intros k. apply option_eq. intros p.
    rewrite Hbt, Hbt', Hs. reflexivity.
  - apply map_eq. intros k. apply option_eq. intros p.
    rewrite Hbs, Hbs', Hs. reflexivity.
  - apply set_eq. intros k. rewrite Hg, Hg', Hs. reflexivity.
Qed.

(** Two key collections with the same members, in whatever order and with
    whatever repetitions, give the same result and the same reports. *)
Theorem getKeyMatchingShapes_order keySet keySet' map0 map1 desc0 desc1 w :
  (∀ k : string, k ∈ keySet ↔ k ∈ keySet') →
  getKeyMatchingShapes keySet map0 map1 desc0 desc1 w
  = getKeyMatchingShapes keySet' map0 map1 desc0 desc1 w.
Proof.
  intros Hs. unfold getKeyMatchingShapes.
  rewrite (records_unique map0 map1 keySet keySet'
             (shape_loop keySet map0 map1) (shape_loop keySet' map0 map1) Hs
             (shape_loop_records map0 map1 keySet)
             (shape_loop_records map0 map1 keySet')).
  reflexivity.
Qed.

Lemma getKeyMatchingShapes_order_witness :
  let map0 : gmap string pyval := {["x" := VInt 1; "y" := VStr "a"]} in
  let map1 : gmap string pyval := {["x" := VInt 2; "y" := VInt 3]} in
  (∀ k : string, k ∈ ["x"; "y"; "z"] ↔ k ∈ ["z"; "y"; "x"; "y"])
  ∧ getKeyMatchingShapes ["x"; "y"; "z"] map0 map1 "first" "second" w0
    = getKeyMatchingShapes ["z"; "y"; "x"; "y"] map0 map1 "first" "second" w0.
Proof.
  intros map0 map1.
  assert (Hs : ∀ k : string, k ∈ ["x"; "y"; "z"] ↔ k ∈ ["z"; "y"; "x"; "y"]).
  { intros k. rewrite !list_elem_of_In. simpl. tauto. }
  split; [exact Hs|].
  exact (getKeyMatchingShapes_order _ _ map0 map1 "first" "second" w0 Hs).
Defined.

(** ** [getKeyMatchingShapes]: the two maps *)

(** Exchanging the two maps keeps the accepted keys and exchanges the two
    missing sets. *)
Theorem getKeyMatchingShapes_swap keySet map0 map1 :
  goodKeys (shape_loop keySet map1 map0) = goodKeys (shape_loop keySet map0 map1)
  ∧ missing0 (shape_loop keySet map1 map0) = missing1 (shape_loop keySet map0 map1)
  ∧ missing1 (shape_loop keySet map1 map0) = missing0 (shape_loop keySet map0 map1).
Proof.
  pose proof (shape_loop_records map0 map1 keySet) as (Hg & Hm0 & Hm1 & _).
  pose proof (shape_loop_records map1 map0 keySet) as (Hg' & Hm0' & Hm1' & _).
  split; [|split]; apply set_eq; intros k.
  - rewrite Hg, Hg'. unfold accepted. split.
    + intros (Hk & v1 & v0 & H1 & H0 & Ht & Hs). split; [exact Hk|].
      exists v0, v1. repeat split; auto. intros a0 a1 -> ->. symmetry. eauto.
    + intros (Hk & v0 & v1 & H0 & H1 & Ht & Hs). split; [exact Hk|].
      exists v1, v0. repeat split; auto. intros a1 a0 -> ->. symmetry. eauto.
  - rewrite Hm0', Hm1. reflexivity.
  - rewrite Hm1', Hm0. reflexivity.
Qed.

(** ** [getCommonKeys] followed by [getKeyMatchingShapes] *)

Lemma any_key_empty (s : gset string) : s = ∅ → any_key s = false.
Proof. intros ->. unfold any_key. rewrite elements_empty. reflexivity. Qed.

(** Run on the keys [getCommonKeys] returns for two dictionaries,
    [getKeyMatchingShapes] never reports a missing key, and it accepts
    exactly the keys whose two values agree in type and, for arrays, in
    shape. *)
Theorem common_then_matching map0 map1 desc0 desc1 h w :
  ∃ ns1 ns2 good,
    (common <- getCommonKeys (Dict map0) (Dict map1) desc0 desc1 h ;;
     getKeyMatchingShapes (elements common) map0 map1 desc0 desc1) w
    = (Return good, add_log w (ns1 ++ ns2))
    ∧ getCommonKeys (Dict map0) (Dict map1) desc0 desc1 h w
      = (Return (dom map0 ∩ dom map1), add_log w ns1)
    ∧ (∀ n, n ∈ ns2 → is_missing_keys n = false)
    ∧ (∀ k, k ∈ good ↔ accepted map0 map1 k).
Proof.
  assert (Hfirst : ∃ ns1, getCommonKeys (Dict map0) (Dict map1) desc0 desc1 h w
                          = (Return (dom map0 ∩ dom map1), add_log w ns1)).
  { rewrite getCommonKeys_run. simpl keyset.
    destruct (decide (symmetric_difference (dom map0) (dom map1) = ∅)).
    - exists []. rewrite add_log_nil. reflexivity.
    - destruct (logMissingKeys_once desc0 desc1 (dom map0 ∖ dom map1)
                  (dom map1 ∖ dom map0) h w) as (ns & -> & _).
      exists ns. reflexivity. }
  destruct Hfirst as [ns1 Hfirst].
  set (keys := elements (dom map0 ∩ dom map1)).
  set (acc := shape_loop keys map0 map1).
  pose proof (shape_loop_records map0 map1 keys) as (Hg & Hm0 & Hm1 & _).
  fold acc in Hg, Hm0, Hm1.
  assert (Hboth : ∀ k, k ∈ keys ↔ is_Some (map0 !! k) ∧ is_Some (map1 !! k)).
  { intros k. unfold keys.
    rewrite elem_of_elements, elem_of_intersection, !elem_of_dom. reflexivity. }
  assert (E0 : missing0 acc = ∅).
  { apply set_eq. intros k. rewrite Hm0, Hboth, elem_of_empty.
    split; [|contradiction]. intros [[[v Hv] _] Hn]. congruence. }
  assert (E1 : missing1 acc = ∅).
  { apply set_eq. intros k. rewrite Hm1, Hboth, elem_of_empty.
    split; [|contradiction]. intros [[_ [v Hv]] Hn]. congruence. }
  eexists ns1, _, (goodKeys acc). split; [|split; [exact Hfirst | split]].
  - unfold bind. rewrite Hfirst. fold keys.
    rewrite getKeyMatchingShapes_run. fold acc.
    rewrite add_log_app. reflexivity.
  - rewrite (any_key_empty _ E0), (any_key_empty _ E1). simpl.
    intros n Hn.
    destruct (negb (bool_decide (badTypes acc = ∅))),
      (negb (bool_decide (badShapes acc = ∅))); simpl in Hn;
      repeat (apply elem_of_cons in Hn as [->|Hn]; [reflexivity|]);
      inversion Hn.
  - intros k. rewrite Hg, Hboth. split; [intros [_ H]; exact H|].
    intros Ha. split; [|exact Ha].
    destruct Ha as (v0 & v1 & H0 & H1 & _). rewrite H0, H1. split; eauto.
Qed.

(** ** [compare]: what reaches [_compare] and what comes back *)

(** Once the checks pass, [compare] hands [_compare] the tolerances as
    floats and [sigma] as a non-negative integer, and, without an override
    of the verbosity, returns its outcome unchanged; the notifications are
    one preamble followed by those of [_compare]. *)
Theorem compare_hands_over cmp self other lower upper sigma w l u s
    (r : outcome bool) (ns : list notice) :
  converted lower upper sigma l u s → valid_tolerances l u →
  issubclass (obj_class other) (obj_class self) = true →
  (∀ w', cmp self other l u (Z.max 0 s) w' = (r, add_log w' ns)) →
  ∃ pre, compare cmp self other lower upper sigma None w
         = (r, add_log w (NInfo pre :: ns)).
Proof.
  intros Hc Hv Hsub Hcmp.
  rewrite (compare_checked _ _ _ _ _ _ _ _ _ _ _ Hc Hv), Hsub.
  unfold delegate, bind, _compareLogPreMsg, info, emit, ret. simpl.
  rewrite Hcmp. eexists.
  destruct r as [b|e|]; unfold add_log; simpl; rewrite <- app_assoc; reflexivity.
Qed.

Lemma compare_hands_over_witness :
  let self := mkObj (PyClass 4 "Sample" [BaseObject]) "self" in
  let other := mkObj (PyClass 4 "Sample" [BaseObject]) "other" in
  converted (PInt 0) (PFloat (f64_ratio 25 2)) (PFloat (f64_ratio (-3) 2))
    (f64_of_int 0) (f64_ratio 25 2) (-1)
  ∧ valid_tolerances (f64_of_int 0) (f64_ratio 25 2)
  ∧ ∃ pre, compare Sample__compare self other (PInt 0) (PFloat (f64_ratio 25 2))
             (PFloat (f64_ratio (-3) 2)) None w0
           = (Return false,
              add_log w0 [NInfo pre;
                          NOutsideTols (VFloat (f64_of_int 1))
                            (VFloat (f64_ratio 3 2)) "value"]).
Proof.
  intros self other.
  assert (Hc : converted (PInt 0) (PFloat (f64_ratio 25 2))
                 (PFloat (f64_ratio (-3) 2)) (f64_of_int 0) (f64_ratio 25 2) (-1)).
  { repeat split. }
  assert (Hv : valid_tolerances (f64_of_int 0) (f64_ratio 25 2)).
  { repeat split. }
  split; [exact Hc|]. split; [exact Hv|].
  apply (compare_hands_over Sample__compare self other (PInt 0)
           (PFloat (f64_ratio 25 2)) (PFloat (f64_ratio (-3) 2)) w0 _ _ _
           (Return false)
           [NOutsideTols (VFloat (f64_of_int 1)) (VFloat (f64_ratio 3 2)) "value"]
           Hc Hv eq_refl).
  intros w'. vm_compute. reflexivity.
Defined.

Lemma compare_verbosity_scope_witness :
  let self := mkObj (PyClass 4 "Sample" [BaseObject]) "self" in
  let other := mkObj (PyClass 4 "Sample" [BaseObject]) "other" in
  stable Sample__compare
  ∧ converted DEF_COMP_LOWER DEF_COMP_UPPER DEF_COMP_SIGMA
      (f64_of_int 0) (f64_of_int 10) 2
  ∧ valid_tolerances (f64_of_int 0) (f64_of_int 10)
  ∧ rc_verbosity (snd (compare Sample__compare self other DEF_COMP_LOWER
                         DEF_COMP_UPPER DEF_COMP_SIGMA (Some "debug") w0))
    = "warning".
Proof.
  intros self other.
  destruct defaults_converted as [Hc Hv].
  split; [exact stable_sample|]. split; [exact Hc|]. split; [exact Hv|].
  rewrite (compare_verbosity_scope Sample__compare self other DEF_COMP_LOWER
             DEF_COMP_UPPER DEF_COMP_SIGMA (Some "debug") w0 _ _ _ stable_sample
             Hc Hv eq_refl).
  vm_compute. reflexivity.
Defined.

(** * Strings and vectors of [serpentTools.utils] *)

(** ** Characters *)

Ltac each_char c := destruct c as [[] [] [] [] [] [] [] []].

Lemma char_lower_upper (c : Ascii.ascii) : char_lower (char_upper c) = char_lower c.
Proof. each_char c; reflexivity. Qed.

Lemma char_lower_idem (c : Ascii.ascii) : char_lower (char_lower c) = char_lower c.
Proof. each_char c; reflexivity. Qed.

Lemma char_lower_underscore (c : Ascii.ascii) :
  char_lower c = underscore → c = underscore.
Proof. each_char c; intros H; first [reflexivity | discriminate H]. Qed.

Lemma chars_inj (s t : string) : chars s = chars t → s = t.
Proof.
  revert t. induction s as [|c s IH]; intros [|d t] H; try discriminate H.
  - reflexivity.
  - simpl in H. inversion H. f_equal. auto.
Qed.

Lemma app_cons (c : Ascii.ascii) (s t : string) :
  String c s +:+ t = String c (s +:+ t).
Proof. reflexivity. Qed.

Lemma app_empty (t : string) : EmptyString +:+ t = t.
Proof. reflexivity. Qed.

Lemma chars_app (s t : string) : chars (s +:+ t) = chars s ++ chars t.
Proof.
  induction s as [|c s IH]; [reflexivity|].
  rewrite app_cons. simpl. rewrite IH. reflexivity.
Qed.

Lemma chars_lower (s : string) : chars (str_lower s) = map char_lower (chars s).
Proof. induction s as [|c s IH]; simpl; [reflexivity | rewrite IH; reflexivity]. Qed.

Lemma chars_capitalize (s : string) :
  map char_lower (chars (str_capitalize s)) = map char_lower (chars s).
Proof.
  destruct s as [|c s]; [reflexivity|]. simpl.
  rewrite char_lower_upper, chars_lower. f_equal.
  rewrite map_map. apply map_ext. intros x. apply char_lower_idem.
Qed.

Lemma chars_join_empty (parts : list string) :
  chars (str_join EmptyString parts) = concat (map chars parts).
Proof.
  unfold str_join. induction parts as [|p ps IH]; [reflexivity|].
  destruct ps as [|p' ps].
  - simpl. rewrite app_nil_r. reflexivity.
  - change (String.concat EmptyString (p :: p' :: ps))
      with (p +:+ EmptyString +:+ String.concat EmptyString (p' :: ps)).
    rewrite chars_app, app_empty, IH. reflexivity.
Qed.

Lemma chars_remove (c : Ascii.ascii) (s : string) :
  chars (str_remove c s) = filter (λ x, x ≠ c) (chars s).
Proof.
  induction s as [|d s IH]; [reflexivity|]. simpl.
  destruct (Ascii.eqb d c) eqn:E.
  - apply Ascii.eqb_eq in E. subst d.
    rewrite filter_cons_False by (intros H; apply H; reflexivity). exact IH.
  - apply Ascii.eqb_neq in E.
    rewrite filter_cons_True by exact E. simpl. rewrite IH. reflexivity.
Qed.

(** ** [str.split] at a character *)

Lemma str_split_chars (sep : Ascii.ascii) (s : string) :
  concat (map chars (str_split sep s)) = filter (λ x, x ≠ sep) (chars s).
Proof.
  induction s as [|c s IH]; [reflexivity|]. simpl.
  destruct (Ascii.eqb c sep) eqn:E.
  - apply Ascii.eqb_eq in E. subst c.
    rewrite filter_cons_False by (intros H; apply H; reflexivity). exact IH.
  - apply Ascii.eqb_neq in E.
    rewrite filter_cons_True by exact E. rewrite <- IH.
    destruct (str_split sep s) as [|p ps]; reflexivity.
Qed.

Lemma str_split_whole (sep : Ascii.ascii) (s : string) :
  sep ∉ chars s → str_split sep s = [s].
Proof.
  induction s as [|c s IH]; intros H; [reflexivity|]. simpl in *.
  apply not_elem_of_cons in H as [Hne Hs].
  assert (E : Ascii.eqb c sep = false) by (apply Ascii.eqb_neq; congruence).
  rewrite E, (IH Hs). reflexivity.
Qed.

(** ** [convertVariableName] *)

Lemma convertVariableName_chars (variable : string) :
  map char_lower (chars (convertVariableName variable))
  = map char_lower (filter (λ x, x ≠ underscore) (chars variable)).
Proof.
  rewrite <- str_split_chars. unfold convertVariableName.
  assert (Hrest : ∀ ps : list string,
    map char_lower (concat (map chars (map str_capitalize (map str_lower ps))))
    = map char_lower (concat (map chars ps))).
  { induction ps as [|p ps IH]; [reflexivity|]. simpl.
    rewrite !map_app, IH, chars_capitalize, chars_lower.
    f_equal. rewrite map_map. apply map_ext.
    intros x. apply char_lower_idem. }
  assert (Hfirst : ∀ p, map char_lower (chars (str_lower p))
                        = map char_lower (chars p)).
  { intros p. rewrite chars_lower, map_map.
    apply map_ext. intros x. apply char_lower_idem. }
  destruct (str_split underscore variable) as [|p ps]; [reflexivity|].
  destruct ps as [|p' ps].
  - simpl. rewrite app_nil_r. apply Hfirst.
  - cbn [map]. rewrite chars_app, chars_join_empty.
    change (str_capitalize (str_lower p') :: map str_capitalize (map str_lower ps))
      with (map str_capitalize (map str_lower (p' :: ps))).
    cbn [concat]. rewrite !map_app, Hrest, Hfirst. simpl. rewrite map_app. reflexivity.
Qed.

(** [convertVariableName] keeps the letters of the variable, up to their
    case, in their order, and drops the underscores: the result has no
    underscore left and as many characters as the variable has besides
    its underscores. *)
Theorem convertVariableName_letters (variable : string) :
  str_lower (convertVariableName variable)
  = str_lower (str_remove underscore variable)
  ∧ (underscore ∉ chars (convertVariableName variable))
  ∧ String.length (convertVariableName variable)
    = String.length (str_remove underscore variable).
Proof.
  pose proof (convertVariableName_chars variable) as H.
  rewrite <- chars_remove in H.
  split; [|split].
  - apply chars_inj. rewrite !chars_lower. exact H.
  - intros Hin.
    assert (Hl : underscore ∈ map char_lower (chars (convertVariableName variable))).
    { apply list_elem_of_fmap. exists underscore. split; [reflexivity | exact Hin]. }
    rewrite H in Hl. apply list_elem_of_fmap in Hl as (c & Hc & Hin').
    symmetry in Hc. apply char_lower_underscore in Hc. subst c.
    rewrite chars_remove in Hin'. apply list_elem_of_filter in Hin' as [Hne _].
    apply Hne. reflexivity.
  - apply (f_equal length) in H. rewrite !length_map in H.
    assert (Hlen : ∀ s, String.length s = length (chars s)).
    { induction s as [|c s IH]; simpl; [reflexivity | rewrite IH; reflexivity]. }
    rewrite !Hlen. exact H.
Qed.

(** A variable without underscore is put in lower case, nothing else. *)
Theorem convertVariableName_plain (variable : string) :
  underscore ∉ chars variable →
  convertVariableName variable = str_lower variable.
Proof.
  intros H. unfold convertVariableName.
  rewrite (str_split_whole underscore variable H). reflexivity.
Qed.

Lemma convertVariableName_plain_witness :
  (underscore ∉ chars "VERSION")
  ∧ convertVariableName "VERSION" = "version"
  ∧ convertVariableName "INF_KINF" = "infKinf".
Proof.
  assert (H : underscore ∉ chars "VERSION").
  { intros Hin. simpl in Hin.
    repeat (apply elem_of_cons in Hin as [Hin|Hin]; [discriminate Hin|]).
    inversion Hin. }
  split; [exact H|]. split; [|reflexivity].
  rewrite (convertVariableName_plain "VERSION" H). reflexivity.
Defined.

(** ** [linkToWiki] *)

Lemma app_inj_r (s t u : string) : s +:+ u = t +:+ u → s = t.
Proof.
  intros H. apply chars_inj. apply (f_equal chars) in H.
  rewrite !chars_app in H. exact (app_inv_tail _ _ _ H).
Qed.

(** Without a text, [None] or empty, the link is the address of the page
    under the wiki; and for a given text two different pages never get the
    same link. *)
Theorem linkToWiki_pages (subLink subLink' : string) (text : option string) :
  linkToWiki subLink None = LEADER_TO_WIKI +:+ subLink
  ∧ linkToWiki subLink (Some EmptyString) = LEADER_TO_WIKI +:+ subLink
  ∧ (linkToWiki subLink text = linkToWiki subLink' text → subLink = subLink').
Proof.
  split; [reflexivity|]. split; [reflexivity|].
  unfold linkToWiki. destruct (text_given text) as [t|]; intros H.
  - apply String.app_inj in H. apply String.app_inj in H.
    apply String.app_inj in H. apply app_inj_r in H.
    apply String.app_inj in H. exact H.
  - apply String.app_inj in H. exact H.
Qed.

Lemma linkToWiki_pages_witness :
  linkToWiki "Input_syntax_manual" None
  = "http://serpent.vtt.fi/mediawiki/index.php/Input_syntax_manual"
  ∧ (linkToWiki "Input_syntax_manual" (Some "Manual")
     = linkToWiki "Input_syntax_manual" (Some "Manual") →
     "Input_syntax_manual" = "Input_syntax_manual").
Proof.
  destruct (linkToWiki_pages "Input_syntax_manual" "Input_syntax_manual"
              (Some "Manual")) as (H1 & _ & H3).
  split; [rewrite H1; reflexivity | exact H3].
Defined.

(** ** [str.split] at white space *)

Lemma str_words_space (c : Ascii.ascii) (r : string) :
  is_space c = true → str_words (String c r) = str_words r.
Proof. intros H. simpl. rewrite H. reflexivity. Qed.

Lemma str_words_cons (c : Ascii.ascii) (r : string) :
  is_space c = false →
  ∃ word rest, str_words (String c r) = String c word :: rest
    ∧ ((word = EmptyString ∧ rest = str_words r)
       ∨ str_words r = word :: rest ∧ ∃ c' r', r = String c' r' ∧ is_space c' = false).
Proof.
  intros Hc. simpl. rewrite Hc. destruct r as [|c' r'].
  - exists EmptyString, []. split; [reflexivity | left; auto].
  - destruct (is_space c') eqn:Hc'.
    + exists EmptyString, (str_words (String c' r')). split; [reflexivity | left; auto].
    + destruct (str_words (String c' r')) as [|word rest] eqn:E.
      * exfalso. simpl in E. rewrite Hc' in E.
        destruct r' as [|c'' r'']; [discriminate E|].
        destruct (is_space c''); [discriminate E|].
        destruct (str_words (String c'' r'')); discriminate E.
      * exists word, rest. split; [reflexivity|]. right. split; [reflexivity|].
        eauto.
Qed.

(** The words [str.split()] gives are not empty and hold no white space,
    and together they hold the characters of the string that are not
    white space, in their order. *)
Lemma str_words_clean (s : string) :
  Forall is_word (str_words s)
  ∧ concat (map chars (str_words s)) = filter (λ c, is_space c = false) (chars s).
Proof.
  induction s as [|c r [IHw IHc]]; [split; [constructor | reflexivity]|].
  change (chars (String c r)) with (c :: chars r).
  destruct (is_space c) eqn:Hc.
  - rewrite str_words_space by exact Hc. split; [exact IHw|].
    rewrite filter_cons_False by congruence. exact IHc.
  - destruct (str_words_cons c r Hc) as (word & rest & -> & Hcase).
    rewrite filter_cons_True by exact Hc.
    destruct Hcase as [[-> ->] | [E _]].
    + split.
      * constructor; [|exact IHw]. split; [discriminate|].
        intros x Hx. apply list_elem_of_singleton in Hx. subst x. exact Hc.
      * simpl. rewrite IHc. reflexivity.
    + rewrite E in IHw, IHc. inversion IHw as [|? ? [Hne Hsp] Hrest]; subst.
      split.
      * constructor; [|exact Hrest]. split; [discriminate|].
        intros x Hx. simpl in Hx. apply elem_of_cons in Hx as [->|Hx]; auto.
      * simpl in *. rewrite IHc. reflexivity.
Qed.

Lemma str_words_word (t r : string) :
  is_word t →
  (r = EmptyString ∨ ∃ c r', r = String c r' ∧ is_space c = true) →
  str_words (t +:+ r) = t :: str_words r.
Proof.
  intros [Hne Hsp] Hr. induction t as [|a t IH]; [congruence|].
  assert (Ha : is_space a = false) by (apply Hsp; left).
  rewrite app_cons. destruct t as [|b t].
  - rewrite app_empty. simpl. rewrite Ha.
    destruct Hr as [-> | (c & r' & -> & Hc)]; [reflexivity|].
    rewrite Hc. reflexivity.
  - assert (Hb : is_space b = false) by (apply Hsp; right; left).
    assert (IH' : str_words (String b t +:+ r) = String b t :: str_words r).
    { apply IH; [discriminate|]. intros x Hx. apply Hsp. right. exact Hx. }
    rewrite app_cons in IH'. rewrite app_cons.
    change (str_words (String a (String b (t +:+ r))))
      with (if is_space a then str_words (String b (t +:+ r))
            else if is_space b then String a EmptyString :: str_words (String b (t +:+ r))
                 else match str_words (String b (t +:+ r)) with
                      | word :: rest => String a word :: rest
                      | [] => [String a EmptyString]
                      end).
    rewrite Ha, Hb, IH'. reflexivity.
Qed.

(** Words joined by single spaces are found again by [str.split()]. *)
Lemma str_words_join (ts : list string) :
  Forall is_word ts → str_words (str_join " " ts) = ts.
Proof.
  unfold str_join. induction 1 as [|t ts Ht Hts IH]; [reflexivity|].
  destruct ts as [|t' ts].
  - assert (E : t +:+ EmptyString = t).
    { apply chars_inj. rewrite chars_app. simpl. apply app_nil_r. }
    simpl. rewrite <- E at 1.
    exact (str_words_word t EmptyString Ht (or_introl eq_refl)).
  - change (String.concat " " (t :: t' :: ts))
      with (t +:+ " " +:+ String.concat " " (t' :: ts)).
    rewrite str_words_word; [|exact Ht|].
    + f_equal. change (" " +:+ String.concat " " (t' :: ts))
        with (String (Ascii.ascii_of_nat 32) (String.concat " " (t' :: ts))).
      rewrite str_words_space by reflexivity. exact IH.
    + right. eexists _, _. split; [reflexivity | reflexivity].
Qed.

Lemma str_words_join_example :
  Forall is_word ["1.0"; "2"; "3E-4"]
  ∧ str_words (str_join " " ["1.0"; "2"; "3E-4"]) = ["1.0"; "2"; "3E-4"]
  ∧ str_words "  1.0 2   3E-4 " = ["1.0"; "2"; "3E-4"].
Proof.
  assert (H : Forall is_word ["1.0"; "2"; "3E-4"]).
  { repeat constructor; try discriminate;
      intros c Hc; simpl in Hc;
      repeat (apply elem_of_cons in Hc as [->|Hc]; [reflexivity|]);
      inversion Hc. }
  split; [exact H|]. split; [exact (str_words_join _ H) | reflexivity].
Qed.

(** ** [str2vec] *)

Lemma convert_each_return {A} (conv : pyval → outcome A) (vec : list pyval)
    (ys : list A) :
  convert_each conv vec = Return ys ↔ Forall2 (λ x y, conv x = Return y) vec ys.
Proof.
  revert ys. induction vec as [|x vec IH]; intros ys; simpl.
  - split.
    + intros H. inversion H. constructor.
    + intros H. inversion H. reflexivity.
  - destruct (conv x) as [y|e|] eqn:Ex.
    + destruct (convert_each conv vec) as [zs|e|] eqn:Ev.
      * split.
        -- intros H. inversion H; subst. constructor; [exact Ex | apply IH; reflexivity].
        -- intros H. inversion H as [|? ? ? ? Hx Hrest]; subst.
           rewrite Ex in Hx. inversion Hx; subst.
           apply IH in Hrest. inversion Hrest. reflexivity.
      * split; [discriminate|]. intros H.
        inversion H as [|? ? ? ? _ Hrest]; subst. apply IH in Hrest. discriminate Hrest.
      * split; [discriminate|]. intros H.
        inversion H as [|? ? ? ? _ Hrest]; subst. apply IH in Hrest. discriminate Hrest.
    + split; [discriminate|]. intros H.
      inversion H as [|? ? ? ? Hx _]; subst. rewrite Ex in Hx. discriminate Hx.
    + split; [discriminate|]. intros H.
      inversion H as [|? ? ? ? Hx _]; subst. rewrite Ex in Hx. discriminate Hx.
Qed.

Lemma convert_each_raise {A} (conv : pyval → outcome A)
    (before after : list pyval) (x : pyval) (e : exn) :
  Forall (λ p, ∃ y, conv p = Return y) before → conv x = Raise e →
  convert_each conv (before ++ x :: after) = Raise e.
Proof.
  intros Hb Hx. induction Hb as [|p ps [y Hp] _ IH]; simpl.
  - rewrite Hx. reflexivity.
  - rewrite Hp, IH. reflexivity.
Qed.

(** [str2vec] returns exactly when every item, or every word of a string,
    converts; the vector then holds the converted items one for one, in
    their order. *)
Theorem str2vec_returns {A B} (it : iterable) (conv : pyval → outcome A)
    (out : list A → B) (b : B) :
  let vec := match it with
             | IStr s => map VStr (str_words s)
             | IItems items => items
             end in
  str2vec it conv out = Return b ↔
  ∃ ys, Forall2 (λ x y, conv x = Return y) vec ys ∧ b = out ys.
Proof.
  intros vec. unfold str2vec. fold vec.
  destruct (convert_each conv vec) as [zs|e|] eqn:E.
  - split.
    + intros H. inversion H. exists zs. split; [|reflexivity].
      apply convert_each_return. exact E.
    + intros (ys & Hys & ->). apply convert_each_return in Hys.
      rewrite E in Hys. inversion Hys. reflexivity.
  - split; [discriminate|]. intros (ys & Hys & _).
    apply convert_each_return in Hys. rewrite E in Hys. discriminate Hys.
  - split; [discriminate|]. intros (ys & Hys & _).
    apply convert_each_return in Hys. rewrite E in Hys. discriminate Hys.
Qed.

(** The first item that does not convert decides: its error is the error
    of [str2vec], whatever comes after it. *)
Theorem str2vec_raises {A B} (conv : pyval → outcome A) (out : list A → B)
    (before after : list pyval) (x : pyval) (e : exn) :
  Forall (λ p, ∃ y, conv p = Return y) before → conv x = Raise e →
  str2vec (IItems (before ++ x :: after)) conv out = Raise e.
Proof.
  intros Hb Hx. unfold str2vec.
  rewrite (convert_each_raise conv before after x e Hb Hx). reflexivity.
Qed.

Lemma str2vec_raises_witness :
  let conv := py_float (λ _, None) in
  Forall (λ p, ∃ y, conv p = Return y) [VInt 1; VFloat (f64_ratio 1 2)]
  ∧ (∃ e, conv VNone = Raise e
          ∧ str2vec (IItems ([VInt 1; VFloat (f64_ratio 1 2)] ++ VNone :: [VInt 3]))
              conv (λ ys, ys) = Raise e).
Proof.
  intros conv.
  assert (Hb : Forall (λ p, ∃ y, conv p = Return y) [VInt 1; VFloat (f64_ratio 1 2)]).
  { repeat constructor; eexists; reflexivity. }
  split; [exact Hb|]. eexists. split; [reflexivity|].
  exact (str2vec_raises conv (λ ys, ys) _ [VInt 3] VNone _ Hb eq_refl).
Defined.

(** A string of words separated by single spaces is converted like the
    list of its words. *)
Theorem str2vec_words {A B} (conv : pyval → outcome A) (out : list A → B)
    (ts : list string) :
  Forall is_word ts →
  str2vec (IStr (str_join " " ts)) conv out
  = str2vec (IItems (map VStr ts)) conv out.
Proof.
  intros H. unfold str2vec. rewrite (str_words_join ts H). reflexivity.
Qed.

Lemma str2vec_words_witness :
  Forall is_word ["1"; "2"; "3"; "4"]
  ∧ str2vec (IStr "1 2 3 4") (λ v, Return v) (λ ys, ys)
    = Return [VStr "1"; VStr "2"; VStr "3"; VStr "4"].
Proof.
  assert (H : Forall is_word ["1"; "2"; "3"; "4"]).
  { repeat constructor; try discriminate;
      intros c Hc; simpl in Hc;
      repeat (apply elem_of_cons in Hc as [->|Hc]; [reflexivity|]);
      inversion Hc. }
  split; [exact H|].
  exact (str2vec_words (λ v, Return v) (λ ys, ys) ["1"; "2"; "3"; "4"] H).
Defined.

(** ** [splitValsUncs] *)

Lemma list_ind_pairs {A} (P : list A → Prop) :
  P [] → (∀ x, P [x]) → (∀ x y r, P r → P (x :: y :: r)) → ∀ l, P l.
Proof.
  intros H0 H1 H2. fix IH 1. intros [|x [|y r]]; [exact H0 | apply H1|].
  apply H2. apply IH.
Qed.

Lemma every_other_lookup {A} (xs : list A) (i : nat) :
  every_other xs !! i = xs !! (2 * i)%nat.
Proof.
  revert xs. induction i as [|i IH]; intros [|x [|y r]]; try reflexivity.
  replace (2 * S i)%nat with (S (S (2 * i))) by lia. simpl. apply IH.
Qed.

Lemma every_other_length {A} (xs : list A) :
  (length (every_other xs) + length (every_other (tail xs)) = length xs
   ∧ length (every_other (tail xs)) ≤ length (every_other xs)
     ≤ S (length (every_other (tail xs))))%nat.
Proof.
  induction xs as [| x | x y r IH] using list_ind_pairs; simpl; try lia.
  destruct r as [|z r']; simpl in *; lia.
Qed.

Lemma every_other_interleave {A} (xs : list A) :
  interleave (every_other xs) (every_other (tail xs)) = xs.
Proof.
  induction xs as [| x | x y r IH] using list_ind_pairs; try reflexivity.
  simpl. f_equal. f_equal. destruct r as [|z r']; [reflexivity|]. exact IH.
Qed.

(** The values are the entries at the even positions and the
    uncertainties those at the odd positions: no entry is lost, and the
    values are as many as the uncertainties or one more. *)
Theorem splitValsUncs_entries (parse_float : string → option double)
    (xs : list double) (copy : bool) :
  ∃ vals uncs,
    splitValsUncs parse_float (FromArray xs) copy = Return (vals, uncs)
    ∧ (∀ i, vals !! i = xs !! (2 * i)%nat)
    ∧ (∀ i, uncs !! i = xs !! (2 * i + 1)%nat)
    ∧ (length vals + length uncs = length xs)%nat
    ∧ (length uncs ≤ length vals ≤ S (length uncs))%nat
    ∧ interleave vals uncs = xs.
Proof.
  exists (slice_even xs), (slice_odd xs). unfold slice_even, slice_odd.
  split; [reflexivity|]. split; [apply every_other_lookup|]. split.
  { intros i. rewrite every_other_lookup.
    destruct xs as [|x r]; [reflexivity|].
    replace (2 * i + 1)%nat with (S (2 * i)) by lia. reflexivity. }
  pose proof (every_other_length xs) as [H1 H2].
  split; [exact H1|]. split; [exact H2|]. apply every_other_interleave.
Qed.

Lemma every_other_cons {A} (x : A) (l : list A) :
  every_other (x :: l) = x :: every_other (tail l).
Proof. destruct l; reflexivity. Qed.

Lemma interleave_every_other {A} (vals : list A) : ∀ uncs : list A,
  (length uncs ≤ length vals ≤ S (length uncs))%nat →
  every_other (interleave vals uncs) = vals
  ∧ every_other (tail (interleave vals uncs)) = uncs.
Proof.
  induction vals as [|x vals IH]; intros uncs H.
  - destruct uncs; [split; reflexivity | simpl in H; lia].
  - destruct uncs as [|u uncs].
    + destruct vals; [split; reflexivity | simpl in H; lia].
    + simpl in H. destruct (IH uncs ltac:(lia)) as [Hv Hu].
      change (interleave (x :: vals) (u :: uncs))
        with (x :: u :: interleave vals uncs).
      rewrite every_other_cons. cbn [tail]. rewrite every_other_cons.
      rewrite Hu. split; [|reflexivity].
      change (every_other (tail (u :: interleave vals uncs)))
        with (every_other (interleave vals uncs)).
      rewrite Hv. reflexivity.
Qed.

(** Splitting the vector [x1, u1, x2, u2, ...] gives back its values and
    its uncertainties. *)
Theorem splitValsUncs_interleave (parse_float : string → option double)
    (vals uncs : list double) (copy : bool) :
  (length uncs ≤ length vals ≤ S (length uncs))%nat →
  splitValsUncs parse_float (FromArray (interleave vals uncs)) copy
  = Return (vals, uncs).
Proof.
  intros H. unfold splitValsUncs, slice_even, slice_odd.
  destruct (interleave_every_other vals uncs H) as [-> ->]. reflexivity.
Qed.

Lemma splitValsUncs_interleave_witness :
  (length (f64s [2; 4]%Z) ≤ length (f64s [1; 3]%Z)
   ≤ S (length (f64s [2; 4]%Z)))%nat
  ∧ splitValsUncs (λ _, None) (FromArray (f64s [1; 2; 3; 4]%Z)) false
    = Return (f64s [1; 3]%Z, f64s [2; 4]%Z).
Proof.
  assert (H : (length (f64s [2; 4]%Z) ≤ length (f64s [1; 3]%Z)
               ≤ S (length (f64s [2; 4]%Z)))%nat)
    by (simpl; lia).
  split; [exact H|].
  exact (splitValsUncs_interleave (λ _, None) (f64s [1; 3]%Z) (f64s [2; 4]%Z)
           false H).
Defined.

(** A sequence of ints and floats is split like the array of its
    numbers. *)
Theorem splitValsUncs_numbers (parse_float : string → option double)
    (items : list pyval) (xs : list double) (copy : bool) :
  Forall2 (λ v x, number_value v = Some x) items xs →
  splitValsUncs parse_float (FromIterable (IItems items)) copy
  = splitValsUncs parse_float (FromArray xs) copy.
Proof.
  intros H. unfold splitValsUncs, str2vec.
  assert (E : convert_each (py_float parse_float) items = Return xs).
  { apply convert_each_return.
    eapply Forall2_impl; [exact H|]. intros v x Hv.
    destruct v as [| z | y | | | |]; try discriminate Hv; simpl in *.
    - destruct (Z.abs z <? FLOAT_OVERFLOW)%Z; congruence.
    - congruence. }
  rewrite E. reflexivity.
Qed.

Lemma splitValsUncs_numbers_witness :
  Forall2 (λ v x, number_value v = Some x)
    [VInt 1; VFloat (f64_ratio 1 2); VInt 3]
    [f64_of_int 1; f64_ratio 1 2; f64_of_int 3]
  ∧ splitValsUncs (λ _, None)
      (FromIterable (IItems [VInt 1; VFloat (f64_ratio 1 2); VInt 3])) true
    = Return ([f64_of_int 1; f64_of_int 3], [f64_ratio 1 2]).
Proof.
  assert (H : Forall2 (λ v x, number_value v = Some x)
                [VInt 1; VFloat (f64_ratio 1 2); VInt 3]
                [f64_of_int 1; f64_ratio 1 2; f64_of_int 3]).
  { repeat constructor. }
  split; [exact H|].
  rewrite (splitValsUncs_numbers (λ _, None) _ _ true H). reflexivity.
Defined.

(** * Detectors *)

(** ** [_getSlices] *)

Lemma slices_fold (fixed : gmap string pyindex) (idx : list (string * list Z)) :
  ∀ (keys : gset string) (slices : list pyindex),
    NoDup idx.*1 → keys ⊆ dom fixed →
    foldl (slices_step fixed) (keys, slices) idx
    = (keys ∖ list_to_set idx.*1,
       slices ++ map (λ e, if bool_decide (e.1 ∈ keys) then slice_for fixed e
                           else IdxSlice 0 (Z.of_nat (length e.2))) idx).
Proof.
  induction idx as [|[key bins] idx IH]; intros keys slices Hnd Hsub.
  - simpl. rewrite app_nil_r. f_equal.
    apply set_eq. intros k. rewrite elem_of_difference, elem_of_empty. tauto.
  - simpl in Hnd. apply NoDup_cons in Hnd as [Hkey Hnd].
    cbn [foldl]. unfold slices_step at 2. cbn [fst snd].
    assert (Hmap : ∀ keys' : gset string,
      (∀ k, k ≠ key → (k ∈ keys' ↔ k ∈ keys)) →
      map (λ e : string * list Z,
             if bool_decide (e.1 ∈ keys') then slice_for fixed e
             else IdxSlice 0 (Z.of_nat (length e.2))) idx
      = map (λ e : string * list Z,
               if bool_decide (e.1 ∈ keys) then slice_for fixed e
               else IdxSlice 0 (Z.of_nat (length e.2))) idx).
    { intros keys' Hk. apply map_ext_in. intros [k b] Hin. simpl.
      assert (Hne : k ≠ key).
      { intros ->. apply Hkey. apply list_elem_of_fmap. exists (key, b).
        split; [reflexivity | apply list_elem_of_In; exact Hin]. }
      destruct (decide (k ∈ keys)) as [Hd|Hd].
      - rewrite !bool_decide_eq_true_2; [reflexivity | exact Hd | apply Hk; auto].
      - rewrite !bool_decide_eq_false_2; [reflexivity | exact Hd |].
        intros H'. apply Hd. apply Hk; auto. }
    destruct (decide (key ∈ keys)) as [Hin|Hin].
    + rewrite (bool_decide_eq_true_2 _ Hin).
      destruct (fixed !! key) as [v|] eqn:Ef.
      2: { exfalso. apply Hsub in Hin. apply elem_of_dom in Hin as [v Hv]. congruence. }
      rewrite IH; [|exact Hnd|].
      2: { intros k Hk. apply elem_of_difference in Hk as [Hk _]. auto. }
      cbn [map fst snd]. rewrite (bool_decide_eq_true_2 _ Hin).
      unfold slice_for at 2. cbn [fst]. rewrite Ef.
      rewrite <- app_assoc. cbn [app]. f_equal.
      * apply set_eq. intros k. cbn [fmap list_fmap list_to_set fst].
        rewrite !elem_of_difference, elem_of_union, elem_of_singleton. tauto.
      * f_equal. f_equal. apply Hmap. intros k Hne.
        rewrite elem_of_difference, elem_of_singleton. tauto.
    + rewrite (bool_decide_eq_false_2 _ Hin).
      rewrite IH; [|exact Hnd | exact Hsub].
      cbn [map fst snd]. rewrite (bool_decide_eq_false_2 _ Hin).
      rewrite <- app_assoc. cbn [app]. f_equal.
      apply set_eq. intros k. cbn [fmap list_fmap list_to_set fst].
      rewrite !elem_of_difference, elem_of_union, elem_of_singleton.
      split; [|tauto]. intros [Hk Hn]. split; [exact Hk|].
      intros [->|H']; [contradiction | auto].
Qed.

(** [_getSlices] gives one slice per index, in the order of the indexes:
    the value [fixed] holds for the key of the index, or else the whole
    axis.  It warns exactly when [fixed] holds a non-empty key that names
    no index, and it never fails once the indexes are set. *)
Theorem getSlices_spec (self : detector) (fixed : option (gmap string pyindex))
    (idx : list (string * list Z)) :
  let f := match fixed with Some f => f | None => ∅ end in
  indexes self = Some idx → NoDup idx.*1 →
  ∃ warnings,
    _getSlices self fixed = Ok (map (slice_for f) idx, warnings)
    ∧ length (map (slice_for f) idx) = length idx
    ∧ (warnings ≠ [] ↔
       ∃ k, k ∈ dom f ∧ (k ∉ idx.*1) ∧ k ≠ EmptyString)
    ∧ (∀ w, w ∈ warnings → w = UnmatchedSliceKeys (dom f ∖ list_to_set idx.*1)).
Proof.
  intros f Hidx Hnd. unfold _getSlices. fold f. rewrite Hidx.
  rewrite (slices_fold f idx (dom f) [] Hnd) by reflexivity.
  cbn [fst snd app].
  assert (Hmap : map (λ e : string * list Z,
                        if bool_decide (e.1 ∈ dom f) then slice_for f e
                        else IdxSlice 0 (Z.of_nat (length e.2))) idx
                 = map (slice_for f) idx).
  { apply map_ext. intros [k b]. simpl.
    destruct (decide (k ∈ dom f)) as [Hd|Hd].
    - rewrite bool_decide_eq_true_2 by exact Hd. reflexivity.
    - rewrite bool_decide_eq_false_2 by exact Hd.
      apply not_elem_of_dom in Hd. unfold slice_for. simpl. rewrite Hd. reflexivity. }
  rewrite Hmap. eexists. split; [reflexivity|].
  split; [apply length_map|].
  assert (Hany : any_key (dom f ∖ list_to_set idx.*1) = true ↔
                 ∃ k, k ∈ dom f ∧ (k ∉ idx.*1) ∧ k ≠ EmptyString).
  { rewrite any_key_spec. split.
    - intros (k & Hk & Hne). apply elem_of_difference in Hk as [Hk Hn].
      rewrite elem_of_list_to_set in Hn. eauto.
    - intros (k & Hk & Hn & Hne). exists k. split; [|exact Hne].
      apply elem_of_difference. rewrite elem_of_list_to_set. auto. }
  rewrite <- Hany.
  destruct (any_key (dom f ∖ list_to_set idx.*1)); split.
  - split; [reflexivity | discriminate].
  - intros w Hw. apply list_elem_of_singleton in Hw. exact Hw.
  - split; [intros H; exfalso; apply H; reflexivity | discriminate].
  - intros w Hw. inversion Hw.
Qed.

Lemma getSlices_spec_witness :
  let det := mkDetector "det" (Some [("energy", [0; 1; 2]%Z); ("universe", [0; 1]%Z)])
               ∅ None true in
  let fixed : gmap string pyindex := {["universe" := IdxInt 1; "reaction" := IdxInt 0]} in
  indexes det = Some [("energy", [0; 1; 2]%Z); ("universe", [0; 1]%Z)]
  ∧ NoDup ["energy"; "universe"]
  ∧ ∃ warnings, _getSlices det (Some fixed)
                = Ok ([IdxSlice 0 3; IdxInt 1], warnings)
      ∧ warnings ≠ [].
Proof.
  intros det fixed.
  assert (Hnd : NoDup ["energy"; "universe"]).
  { apply (bool_decide_unpack _). vm_compute. exact I. }
  split; [reflexivity|]. split; [exact Hnd|].
  destruct (getSlices_spec det (Some fixed) _ eq_refl Hnd)
    as (warnings & Hrun & _ & Hwarn & _).
  exists warnings. split; [exact Hrun|].
  apply Hwarn. exists "reaction". split; [|split].
  - apply (bool_decide_unpack _). vm_compute. exact I.
  - apply (bool_decide_unpack _). vm_compute. exact I.
  - discriminate.
Defined.

(** ** [slice] *)

(** Without constraints, [fixed] being [None] or empty, [slice] returns
    exactly the array stored under the name of the data set, without a
    warning, provided the detector is reshaped; it consults neither the
    indexes nor the indexing of [numpy]. *)
Theorem slice_unconstrained
    (np_getitem : ndarray → list pyindex → result ndarray)
    (self : detector) (fixed : option (gmap string pyindex)) (data : string)
    (a : ndarray) (ws : list det_warning) :
  fixed_given fixed = false →
  (slice np_getitem self fixed data = Ok (a, ws) ↔
   isReshaped self = true
   ∧ (∃ m, det_map self = Some m ∧ m !! data = Some (Some a))
   ∧ ws = []).
Proof.
  intros Hf. unfold slice. rewrite Hf. simpl.
  destruct (isReshaped self); simpl.
  2: { split; [discriminate | intros [H _]; discriminate H]. }
  destruct (det_map self) as [m|].
  2: { split; [discriminate | intros (_ & (m & H & _) & _); discriminate H]. }
  destruct (m !! data) as [[work|]|] eqn:E.
  - split.
    + intros H. inversion H; subst. split; [reflexivity|]. split; [eauto | reflexivity].
    + intros (_ & (m' & Hm & Hd) & ->). inversion Hm; subst m'.
      rewrite E in Hd. inversion Hd. reflexivity.
  - split; [discriminate|]. intros (_ & (m' & Hm & Hd) & _).
    inversion Hm; subst m'. rewrite E in Hd. discriminate Hd.
  - split; [discriminate|]. intros (_ & (m' & Hm & Hd) & _).
    inversion Hm; subst m'. rewrite E in Hd. discriminate Hd.
Qed.

Lemma slice_unconstrained_witness :
  let tallies := mkArr [2%nat] (f64s [1; 2]%Z) in
  let det := mkDetector "det" None ∅
               (Some {["tallies" := Some tallies; "scores" := None]}) true in
  fixed_given (Some ∅) = false
  ∧ slice (λ a _, Ok a) det (Some ∅) "tallies" = Ok (tallies, []).
Proof.
  intros tallies det.
  assert (Hf : fixed_given (Some ∅) = false) by reflexivity.
  split; [exact Hf|].
  apply (slice_unconstrained (λ a _, Ok a) det (Some ∅) "tallies" tallies [] Hf).
  split; [reflexivity|]. split; [|reflexivity].
  eexists. split; reflexivity.
Defined.

Lemma getSlices_run (self : detector) (f : gmap string pyindex)
    (idx : list (string * list Z)) :
  indexes self = Some idx → NoDup idx.*1 →
  _getSlices self (Some f)
  = Ok (map (slice_for f) idx,
        if any_key (dom f ∖ list_to_set idx.*1)
        then [UnmatchedSliceKeys (dom f ∖ list_to_set idx.*1)] else []).
Proof.
  intros Hidx Hnd. unfold _getSlices. rewrite Hidx.
  rewrite (slices_fold f idx (dom f) [] Hnd) by reflexivity.
  cbn [fst snd app]. do 2 f_equal.
  apply map_ext. intros [k b]. simpl.
  destruct (decide (k ∈ dom f)) as [Hd|Hd].
  - rewrite bool_decide_eq_true_2 by exact Hd. reflexivity.
  - rewrite bool_decide_eq_false_2 by exact Hd.
    apply not_elem_of_dom in Hd. unfold slice_for. simpl. rewrite Hd. reflexivity.
Qed.

(** With constraints, [slice] indexes the stored array with one slice per
    index, the fixed value where [fixed] names the index and the whole
    axis elsewhere; the errors of the indexing are its errors. *)
Theorem slice_constrained
    (np_getitem : ndarray → list pyindex → result ndarray)
    (self : detector) (f : gmap string pyindex) (data : string)
    (m : gmap string (option ndarray)) (work : ndarray)
    (idx : list (string * list Z)) :
  isReshaped self = true → det_map self = Some m →
  m !! data = Some (Some work) → f ≠ ∅ →
  indexes self = Some idx → NoDup idx.*1 →
  match np_getitem work (map (slice_for f) idx) with
  | Ok view => ∃ ws, slice np_getitem self (Some f) data = Ok (view, ws)
  | Err e => slice np_getitem self (Some f) data = Err e
  end.
Proof.
  intros Hr Hm Hd Hf Hidx Hnd. unfold slice.
  rewrite Hr, Hm, Hd. simpl.
  rewrite (bool_decide_eq_false_2 _ Hf). simpl.
  rewrite (getSlices_run self f idx Hidx Hnd).
  destruct (np_getitem work (map (slice_for f) idx)); [eexists|]; reflexivity.
Qed.

Lemma slice_constrained_witness :
  let tallies := mkArr [3%nat; 2%nat] (f64s [1; 2; 3; 4; 5; 6]%Z) in
  let idx := [("energy", [0; 1; 2]%Z); ("universe", [0; 1]%Z)] in
  let m : gmap string (option ndarray) := {["tallies" := Some tallies]} in
  let det := mkDetector "det" (Some idx) ∅ (Some m) true in
  let f : gmap string pyindex := {["universe" := IdxInt 1]} in
  f ≠ ∅ ∧ NoDup idx.*1
  ∧ ∃ ws, slice (λ a _, Ok a) det (Some f) "tallies" = Ok (tallies, ws).
Proof.
  intros tallies idx m det f.
  assert (Hf : f ≠ ∅) by (apply (bool_decide_unpack _); vm_compute; exact I).
  assert (Hnd : NoDup idx.*1) by (apply (bool_decide_unpack _); vm_compute; exact I).
  split; [exact Hf|]. split; [exact Hnd|].
  exact (slice_constrained (λ a _, Ok a) det f "tallies" m tallies idx
           eq_refl eq_refl eq_refl Hf eq_refl Hnd).
Defined.

(** ** Grids and indexes of a detector *)

Lemma inGridsAs_run (self : detector) (qty k : string) :
  first_upper qty = Ok k → _inGridsAs self qty = Ok (grids self !! k).
Proof.
  intros Hk. unfold _inGridsAs, _dimInGrids. rewrite Hk.
  destruct (grids self !! k) as [g|] eqn:E.
  - rewrite bool_decide_eq_true_2 by eauto. reflexivity.
  - rewrite bool_decide_eq_false_2 by (intros [g Hg]; discriminate Hg).
    reflexivity.
Qed.

(** Only the first letter of a quantity decides which grid it names, and
    its case does not matter; a quantity without letters raises. *)
Theorem inGridsAs_first_letter (self : detector) (qty qty' : string) :
  (first_upper qty = first_upper qty' →
   _inGridsAs self qty = _inGridsAs self qty')
  ∧ (∀ k, first_upper qty = Ok k → _inGridsAs self qty = Ok (grids self !! k))
  ∧ ∃ m, _inGridsAs self EmptyString = Err (IndexError m).
Proof.
  split; [|split].
  - intros E. unfold _inGridsAs, _dimInGrids. rewrite E. reflexivity.
  - intros k. apply inGridsAs_run.
  - eexists. reflexivity.
Qed.

Lemma inGridsAs_first_letter_witness :
  let g := mkGrid 3 [[0; 1; 1 # 2]; [1; 2; 3 # 2]] in
  let det := mkDetector "det" (Some []) {["E" := g]} None true in
  _inGridsAs det "energy" = Ok (Some g)
  ∧ _inGridsAs det "energy" = _inGridsAs det "E".
Proof.
  intros g det.
  destruct (inGridsAs_first_letter det "energy" "E") as (Hsame & Hrun & _).
  split; [rewrite (Hrun "E" eq_refl); reflexivity | apply Hsame; reflexivity].
Defined.

Lemma index_bins_None (idx : list (string * list Z)) (qty : string) :
  index_bins idx qty = None ↔ qty ∉ idx.*1.
Proof.
  induction idx as [|[k b] idx IH]; simpl.
  - split; [intros _ H; inversion H | reflexivity].
  - rewrite not_elem_of_cons. destruct (String.eqb k qty) eqn:E.
    + apply String.eqb_eq in E. split; [discriminate | intros [H _]; congruence].
    + apply String.eqb_neq in E. rewrite IH. split; [intros H; split; [congruence | exact H] | tauto].
Qed.

Lemma first_entries (n : nat) (rs : list (list Q)) :
  Forall (λ row, length row = S n) rs →
  length (omap head rs) = length rs
  ∧ ∀ i row, rs !! i = Some row → omap head rs !! i = row !! 0%nat.
Proof.
  induction 1 as [|row rs Hrow _ [IHl IHi]].
  - split; [reflexivity | intros i row H; inversion H].
  - destruct row as [|x row]; [discriminate Hrow|].
    change (omap head ((x :: row) :: rs)) with (x :: omap head rs).
    split; [simpl; rewrite IHl; reflexivity|].
    intros [|i] row' H.
    + inversion H; subst. reflexivity.
    + apply IHi. exact H.
Qed.

Lemma column0_proper (g : grid) :
  proper_grid g →
  ∃ lows, column0 g = Ok lows ∧ length lows = length (rows g)
    ∧ ∀ i row, rows g !! i = Some row → lows !! i = row !! 0%nat.
Proof.
  intros (Hwf & Hc & _). unfold column0.
  destruct (ncols g) as [|n] eqn:En; [lia|].
  exists (omap head (rows g)). split; [reflexivity|].
  unfold wf_grid in Hwf. rewrite En in Hwf.
  exact (first_entries n (rows g) Hwf).
Qed.

Lemma last_upper_proper (g : grid) :
  proper_grid g →
  ∃ row top, last (rows g) = Some row ∧ row !! 1%nat = Some top
             ∧ last_upper g = Ok top.
Proof.
  intros (Hwf & Hc & Hne). unfold last_upper.
  destruct (last (rows g)) as [row|] eqn:El.
  2: { apply last_None in El. contradiction. }
  assert (Hin : row ∈ rows g).
  { apply last_Some in El as [l' ->]. apply elem_of_app. right. left. }
  unfold wf_grid in Hwf. rewrite Forall_forall in Hwf. specialize (Hwf row Hin).
  destruct (row !! 1%nat) as [top|] eqn:Et.
  - exists row, top. auto.
  - apply lookup_ge_None in Et. lia.
Qed.

(** For a quantity that names a grid, [_getGrid] gives the lower bounds
    of all the bins followed by the upper bound of the last one, one more
    entry than the grid has bins; the indexes play no part. *)
Theorem getGrid_grid (self : detector) (qty k : string) (g : grid) :
  first_upper qty = Ok k → grids self !! k = Some g → proper_grid g →
  ∃ lows row top,
    _getGrid self qty = Ok (lows ++ [top])
    ∧ length (lows ++ [top]) = S (length (rows g))
    ∧ (∀ i row', rows g !! i = Some row' → lows !! i = row' !! 0%nat)
    ∧ last (rows g) = Some row ∧ row !! 1%nat = Some top.
Proof.
  intros Hk Hg Hp. unfold _getGrid. rewrite (inGridsAs_run self qty k Hk), Hg.
  destruct (column0_proper g Hp) as (lows & -> & Hlen & Hlows).
  destruct (last_upper_proper g Hp) as (row & top & Hlast & Htop & ->).
  exists lows, row, top. split; [reflexivity|]. split.
  - rewrite length_app. simpl. lia.
  - auto.
Qed.

Lemma getGrid_grid_witness :
  let g := mkGrid 3 [[0; 1; 1 # 2]; [1; 2; 3 # 2]] in
  let det := mkDetector "det" None {["E" := g]} None true in
  proper_grid g
  ∧ ∃ lows top, _getGrid det "energy" = Ok (lows ++ [top])
                ∧ length (lows ++ [top]) = 3%nat
                ∧ last (rows g) = Some [1; 2; 3 # 2].
Proof.
  intros g det.
  assert (Hp : proper_grid g).
  { split; [repeat constructor | split; [simpl; lia | discriminate]]. }
  split; [exact Hp|].
  destruct (getGrid_grid det "energy" "E" g eq_refl eq_refl Hp)
    as (lows & row & top & Hrun & Hlen & _).
  exists lows, top. split; [exact Hrun|]. split; [exact Hlen | reflexivity].
Defined.

(** For a quantity that names no grid, [_getGrid] gives the bins of the
    index of that name followed by their number, and raises a [KeyError]
    exactly when there is no such index. *)
Theorem getGrid_index (self : detector) (qty k : string)
    (idx : list (string * list Z)) :
  first_upper qty = Ok k → grids self !! k = None →
  indexes self = Some idx →
  (qty ∉ idx.*1 ↔ _getGrid self qty = Err (no_index_error qty idx))
  ∧ (∀ bins, index_bins idx qty = Some bins →
       _getGrid self qty
       = Ok (map inject_Z bins ++ [inject_Z (Z.of_nat (length bins))])).
Proof.
  intros Hk Hg Hidx. unfold _getGrid.
  rewrite (inGridsAs_run self qty k Hk), Hg, Hidx.
  destruct (index_bins idx qty) as [bins|] eqn:E.
  - split.
    + split; [|discriminate]. intros Hn. apply index_bins_None in Hn. congruence.
    + intros b Hb. inversion Hb. reflexivity.
  - split.
    + split; [reflexivity|]. intros _. apply index_bins_None. exact E.
    + intros b Hb. discriminate Hb.
Qed.

Lemma getGrid_index_witness :
  let idx := [("universe", [0; 1; 2]%Z)] in
  let det := mkDetector "det" (Some idx) ∅ None true in
  _getGrid det "universe" = Ok [0; 1; 2; 3]
  ∧ _getGrid det "reaction" = Err (no_index_error "reaction" idx).
Proof.
  intros idx det.
  destruct (getGrid_index det "universe" "U" idx eq_refl eq_refl eq_refl) as [_ H1].
  destruct (getGrid_index det "reaction" "R" idx eq_refl eq_refl eq_refl) as [H2 _].
  split.
  - rewrite (H1 _ eq_refl). reflexivity.
  - apply H2. simpl. intros Hin.
    apply list_elem_of_singleton in Hin. discriminate Hin.
Defined.

(** Where [_getPlotXData] labels the axis with the quantity, its x data
    are what [_getGrid] gives for that quantity without the last entry;
    and where [_getGrid] raises for want of an index, [_getPlotXData]
    falls back on the bin numbers. *)
Theorem getPlotXData_getGrid (self : detector) (qty : string)
    (idx : list (string * list Z)) (ydata : ndarray) (n : nat) :
  qty ≠ EmptyString →
  (∀ k g, grids self !! k = Some g → proper_grid g) →
  indexes self = Some idx → arr_len ydata = Ok n →
  (∃ xs top, _getPlotXData self (Some qty) ydata = Ok (xs, qty)
             ∧ _getGrid self qty = Ok (xs ++ [top]))
  ∨ (_getPlotXData self (Some qty) ydata = Ok (arange n, "Bin Index")
     ∧ _getGrid self qty = Err (no_index_error qty idx)).
Proof.
  intros Hne Hgrids Hidx Hlen.
  destruct qty as [|c r]; [congruence|].
  unfold _getPlotXData, _getGrid.
  rewrite Hlen, (inGridsAs_run self (String c r) _ eq_refl), Hidx.
  destruct (grids self !! String (char_upper c) EmptyString) as [g|] eqn:Eg.
  - left. pose proof (Hgrids _ _ Eg) as Hp.
    destruct (column0_proper g Hp) as (lows & -> & _).
    destruct (last_upper_proper g Hp) as (row & top & _ & _ & ->).
    exists lows, top. split; reflexivity.
  - destruct (index_bins idx (String c r)) as [bins|] eqn:E.
    + left. eexists _, _. split; reflexivity.
    + right. split; reflexivity.
Qed.

Lemma getPlotXData_getGrid_witness :
  let idx := [("universe", [0; 1; 2]%Z)] in
  let det := mkDetector "det" (Some idx) ∅ None true in
  let ydata := mkArr [4%nat; 1%nat] (f64s [1; 2; 3; 4]%Z) in
  _getPlotXData det (Some "reaction") ydata = Ok (arange 4, "Bin Index")
  ∧ ∃ xs top, _getPlotXData det (Some "universe") ydata = Ok (xs, "universe")
              ∧ _getGrid det "universe" = Ok (xs ++ [top]).
Proof.
  intros idx det ydata.
  assert (Hg : ∀ k g, grids det !! k = Some g → proper_grid g).
  { intros k g H. simpl in H. rewrite lookup_empty in H. discriminate H. }
  split.
  - destruct (getPlotXData_getGrid det "reaction" idx ydata 4
                ltac:(discriminate) Hg eq_refl eq_refl)
      as [(xs & top & _ & H) | [H _]]; [discriminate H | exact H].
  - destruct (getPlotXData_getGrid det "universe" idx ydata 4
                ltac:(discriminate) Hg eq_refl eq_refl)
      as [(xs & top & H & H') | [_ H]]; [|discriminate H].
    exists xs, top. split; assumption.
Defined.
